(** * controlled-frame test app: the reflective control framework

    A shallow embedding of [ControlElement] (controlElement.js) and
    [ControlGroupElement] (controlGroupElement.js), the two Lit custom
    elements from which the test application builds its control tree,
    together with the properties the specification states about them.

    JavaScript objects are held in a store indexed by references, so that
    a child placed in a group is shared with it, not copied.  Effects (log
    lines, calls of the bound callback) are collected in order in a trace.
    The part of the browser the two classes rely on (the [type], [value],
    [checked] and [options] properties of form elements, and
    [querySelector] on an id selector) is modelled after the HTML
    Standard, in the section "Platform" below. *)

From stdpp Require Import gmap strings list fin_maps relations pretty.
From Stdlib Require Import Ascii.

Local Open Scope string_scope.
Local Open Scope list_scope.
Local Open Scope nat_scope.

(** ** JavaScript values, errors and outcomes *)

(** An object reference (the identity of a JavaScript object). *)
Definition ref := nat.

(** The identity of a callback function (a [ControlCallback]). *)
Definition callback := nat.

Inductive js_error :=
| TypeError
| ReferenceError
| ThrownString (msg : string).

(** An [<option>] inside a [<select>]: its value and its selectedness. *)
Record OptionEl := mkOption { opt_value : string; opt_selected : bool }.

(** The values that flow through field reads and writes.  The test
    application passes booleans and strings; a multi-select read yields
    the element's [options] collection. *)
Inductive jsval :=
| JUndefined
| JNull
| JBool (b : bool)
| JStr (s : string)
| JOptions (os : list OptionEl).

Definition ToBoolean (v : jsval) : bool :=
  match v with
  | JUndefined | JNull => false
  | JBool b => b
  | JStr s => negb (String.eqb s "")
  | JOptions _ => true
  end.

Definition ToString (v : jsval) : string :=
  match v with
  | JUndefined => "undefined"
  | JNull => "null"
  | JBool true => "true"
  | JBool false => "false"
  | JStr s => s
  | JOptions _ => "[object HTMLOptionsCollection]"
  end.

(** How a call ends.  [AwaitsRender] is a computation suspended on
    [updateComplete]; [Unmodelled] marks a selector outside the fragment
    of CSS that [querySelector] below interprets. *)
Inductive outcome (A : Type) :=
| Returns (a : A)
| Throws (e : js_error)
| AwaitsRender
| Unmodelled.
Arguments Returns {A} a.
Arguments Throws {A} e.
Arguments AwaitsRender {A}.
Arguments Unmodelled {A}.

(** Observable effects, in program order. *)
Inductive effect :=
| LogErr (msg : string)
| Call (h : callback) (arg : ref).

(** A computation appends effects to the trace and ends in an outcome. *)
Definition M (A : Type) : Type := list effect → outcome A * list effect.

Definition ret {A} (a : A) : M A := λ tr, (Returns a, tr).
Definition throw {A} (e : js_error) : M A := λ tr, (Throws e, tr).
Definition perform (ev : effect) : M () := λ tr, (Returns (), tr ++ [ev]).

(** Runs a computation from the empty trace. *)
Definition run {A} (m : M A) : outcome A * list effect := m [].

(** ** Platform: form elements and id selectors *)

(** The elements a control renders that can carry an id.  An [Input]
    keeps the [type] content attribute as written and its current value
    and checkedness; a [Div] keeps its text and whatever was assigned to
    its (non-standard) [value] property. *)
Inductive Element :=
| Input (eid : string) (type_attr : string) (cur_value : string) (cur_checked : bool)
| Select (eid : string) (is_multiple : bool) (opts : list OptionEl)
| Div (eid : string) (innerText : string) (expando_value : option jsval)
| Button (eid : string) (text : string) (btn_value : string).

(** A rendered child of the control's render root. *)
Inductive Template :=
| TLabel (for_ : option string) (text : string)
| TElement (e : Element).

Definition element_id (e : Element) : string :=
  match e with
  | Input i _ _ _ | Select i _ _ | Div i _ _ | Button i _ _ => i
  end.

Definition ascii_lower (c : ascii) : ascii :=
  let n := nat_of_ascii c in
  if (65 <=? n)%nat && (n <=? 90)%nat then ascii_of_nat (n + 32) else c.

Fixpoint string_lower (s : string) : string :=
  match s with
  | EmptyString => EmptyString
  | String c s' => String (ascii_lower c) (string_lower s')
  end.

(** The keywords of the [type] attribute of [<input>]. *)
Definition input_type_keywords : list string :=
  [ "hidden"; "text"; "search"; "tel"; "url"; "email"; "password"; "date";
    "month"; "week"; "time"; "datetime-local"; "number"; "range"; "color";
    "checkbox"; "radio"; "file"; "submit"; "image"; "reset"; "button" ].

(** [input.type]: the keyword the attribute matches, ASCII case
    insensitively, and ["text"] for anything else (so that
    [type="textarea"] reads back as ["text"]). *)
Definition input_type_idl (attr : string) : string :=
  let a := string_lower attr in
  if bool_decide (a ∈ input_type_keywords) then a else "text".

(** [element.type]: [None] is [undefined] (a [<div>] has no such
    property); a [<select>] reports ["select-one"] or
    ["select-multiple"], never ["select"]. *)
Definition element_type (e : Element) : option string :=
  match e with
  | Input _ a _ _ => Some (input_type_idl a)
  | Select _ m _ => Some (if m then "select-multiple" else "select-one")
  | Div _ _ _ => None
  | Button _ _ _ => Some "submit"
  end.

(** [select.value]: the value of the first selected option, else [""]. *)
Fixpoint select_value (os : list OptionEl) : string :=
  match os with
  | [] => ""
  | o :: os' => if opt_selected o then opt_value o else select_value os'
  end.

(** Assigning [select.value]: every option is deselected, then the first
    option whose value equals the new value is selected, if there is one. *)
Fixpoint select_first (v : string) (os : list OptionEl) : list OptionEl :=
  match os with
  | [] => []
  | o :: os' =>
      if String.eqb (opt_value o) v
      then mkOption (opt_value o) true :: map (λ o', mkOption (opt_value o') false) os'
      else mkOption (opt_value o) false :: select_first v os'
  end.

(** What the page supplies: the value sanitization of [<input>], by type
    and raw value, and the global variable [buttonText] if the page
    defines one ([None] when the identifier resolves to nothing). *)
Record Platform := mkPlatform {
  sanitize : string → string → string;
  global_buttonText : option string
}.

(** Reading [field.checked], [field.options] and [field.value]. *)
Definition get_checked (e : Element) : jsval :=
  match e with
  | Input _ _ _ c => JBool c
  | _ => JUndefined
  end.

Definition get_options (e : Element) : jsval :=
  match e with
  | Select _ _ os => JOptions os
  | _ => JUndefined
  end.

Definition get_value (e : Element) : jsval :=
  match e with
  | Input _ _ v _ => JStr v
  | Select _ _ os => JStr (select_value os)
  | Div _ _ x => default JUndefined x
  | Button _ _ v => JStr v
  end.

(** Assigning [field.checked], [field.innerText] and [field.value].
    [input.value] treats [null] as the empty string. *)
Definition set_checked (v : jsval) (e : Element) : Element :=
  match e with
  | Input i a cv _ => Input i a cv (ToBoolean v)
  | _ => e
  end.

Definition text_of (v : jsval) : string :=
  match v with
  | JNull => ""
  | _ => ToString v
  end.

Definition set_innerText (v : jsval) (e : Element) : Element :=
  match e with
  | Div i _ x => Div i (text_of v) x
  | Button i _ bv => Button i (text_of v) bv
  | Select i m _ => Select i m []
  | Input _ _ _ _ => e
  end.

Definition set_value (env : Platform) (v : jsval) (e : Element) : Element :=
  match e with
  | Input i a _ c => Input i a (sanitize env (input_type_idl a) (text_of v)) c
  | Select i m os => Select i m (select_first (ToString v) os)
  | Div i t _ => Div i t (Some v)
  | Button i t _ => Button i t (ToString v)
  end.

(** Names that can be spliced after [#] and still form a plain id
    selector: a letter or underscore, then letters, digits, [_] and [-]. *)
Definition is_letter (c : ascii) : bool :=
  let n := nat_of_ascii c in
  ((65 <=? n)%nat && (n <=? 90)%nat) || ((97 <=? n)%nat && (n <=? 122)%nat).

Definition is_digit (c : ascii) : bool :=
  let n := nat_of_ascii c in (48 <=? n)%nat && (n <=? 57)%nat.

Definition is_ident_start (c : ascii) : bool :=
  is_letter c || Ascii.eqb c "_".

Definition is_ident_char (c : ascii) : bool :=
  is_letter c || is_digit c || Ascii.eqb c "_" || Ascii.eqb c "-".

Definition css_ident (s : string) : bool :=
  match s with
  | EmptyString => false
  | String c rest => is_ident_start c && forallb is_ident_char (String.list_ascii_of_string rest)
  end.

Inductive query_result :=
| Matched (pos : nat) (e : Element)
| NoMatch
| OutsideFragment.

(** The first element in document order whose id is [i], with its
    position among the children of the root (ids compare case
    sensitively, as in a standards-mode document). *)
Fixpoint find_by_id (root : list Template) (i : string) (pos : nat) : option (nat * Element) :=
  match root with
  | [] => None
  | TElement e :: rest =>
      if String.eqb (element_id e) i then Some (pos, e) else find_by_id rest i (S pos)
  | TLabel _ _ :: rest => find_by_id rest i (S pos)
  end.

(** [root.querySelector(selector)] for a selector of the form [#name]:
    [NoMatch] is [null]. *)
Definition querySelector (root : list Template) (selector : string) : query_result :=
  match selector with
  | String "#" name =>
      if css_ident name
      then match find_by_id root name 0 with
           | Some (pos, e) => Matched pos e
           | None => NoMatch
           end
      else OutsideFragment
  | _ => OutsideFragment
  end.

(** The [switch (field.type)] of the source compares with [===]. *)
Definition type_is (e : Element) (s : string) : bool :=
  bool_decide (element_type e = Some s).

(** ** Field descriptors and constructor parameters *)

Module Field.
Record t := mk {
  name : option string;
  type : string;
  value : option string;
  checked : bool;
  options : list string;
  multiple : bool;
  id : option string
}.
End Field.

Module Params.
Record t := mk {
  name : option string;
  fields : option (list Field.t);
  isEventControl : option bool;
  buttonText : option string;
  handler : option callback
}.
End Params.

(** A [keydown] event, as far as the control looks at it. *)
Record KeyboardEvent := mkKey { code : string }.

(** ** ControlElement (controlElement.js) *)

Module ControlElement.

(** The state of one control.  [renderRoot] is [None] until the first
    render has produced the widgets. *)
Record t := mk {
  id : string;
  name : option string;
  fields : list Field.t;
  isEventControl : bool;
  buttonText : string;
  handler : option callback;
  renderRoot : option (list Template)
}.

Definition missing_name : js_error :=
  ThrownString "ControlElement: Name or field name must be provided.".

(** [constructor(params = {})].  With [params.name] omitted the id
    prefix is the name of the first field; reading [params.fields.length]
    of a missing array is a TypeError. *)
Definition constructor (params : Params.t) : outcome t :=
  let idPrefix :=
    match Params.name params with
    | None =>
        match Params.fields params with
        | None => Throws TypeError
        | Some [] => Throws missing_name
        | Some (first :: _) =>
            match Field.name first with
            | None => Throws missing_name
            | Some n => Returns n
            end
        end
    | Some _ => Returns ""
    end in
  match idPrefix with
  | Returns idPrefix =>
      Returns {| id := idPrefix +:+ "_control";
                 name := Params.name params;
                 fields := default [] (Params.fields params);
                 isEventControl := default false (Params.isEventControl params);
                 buttonText := match Params.buttonText params with
                               | Some b => if String.eqb b "" then "Call" else b
                               | None => "Call"
                               end;
                 handler := Params.handler params;
                 renderRoot := None |}
  | Throws e => Throws e
  | AwaitsRender => AwaitsRender
  | Unmodelled => Unmodelled
  end.

(** The options of a freshly inserted [<select>]: none selected when
    [multiple], else the first one. *)
Definition initial_options (multiple : bool) (values : list string) : list OptionEl :=
  match values with
  | [] => []
  | v :: vs =>
      mkOption v (negb multiple) :: map (λ v', mkOption v' false) vs
  end.

Definition renderField (env : Platform) (field : Field.t) : list Template :=
  let id := match Field.id field with
            | Some i => i
            | None => default "" (Field.name field)
            end in
  let template := [TLabel (Field.name field) (default "" (Field.name field))] in
  if String.eqb (Field.type field) "checkbox" then
    template ++ [TElement (Input id (Field.type field) "on" (Field.checked field))]
  else if String.eqb (Field.type field) "select" then
    template ++ [TElement (Select id (Field.multiple field)
                             (initial_options (Field.multiple field) (Field.options field)))]
  else if String.eqb (Field.type field) "div" then
    template ++ [TElement (Div id "" None)]
  else
    template ++ [TElement (Input id (Field.type field)
                             (sanitize env (input_type_idl (Field.type field))
                                (default "" (Field.value field)))
                             false)].

Definition renderFields (env : Platform) (this : t) : list Template :=
  flat_map (renderField env) (fields this).

(** [!!this.name]: a missing or empty name is falsy. *)
Definition truthy_name (n : option string) : bool :=
  match n with
  | Some s => negb (String.eqb s "")
  | None => false
  end.

Definition maybeRenderButton (this : t) : list Template :=
  if isEventControl this || negb (bool_decide (is_Some (handler this))) then []
  else
    let buttonLabel :=
      if truthy_name (name this) then [TLabel None (default "" (name this))] else [] in
    buttonLabel ++ [TElement (Button "button" (buttonText this) "")].

Definition render (env : Platform) (this : t) : list Template :=
  renderFields env this ++ maybeRenderButton this.

(** The first update of the element: the render root receives the
    output of [render]. *)
Definition firstUpdate (env : Platform) (this : t) : t :=
  match renderRoot this with
  | Some _ => this
  | None =>
      {| id := id this; name := name this; fields := fields this;
         isEventControl := isEventControl this; buttonText := buttonText this;
         handler := handler this; renderRoot := Some (render env this) |}
  end.

Definition with_root (this : t) (root : list Template) : t :=
  {| id := id this; name := name this; fields := fields this;
     isEventControl := isEventControl this; buttonText := buttonText this;
     handler := handler this; renderRoot := Some root |}.

(** [this.#handler(this)]: calling a handler that is not a function is a
    TypeError.  [self] is the identity of the control. *)
Definition call_handler (self : ref) (this : t) : M () :=
  match handler this with
  | Some h => perform (Call h self)
  | None => throw TypeError
  end.

Definition Submit (self : ref) (this : t) : M () :=
  call_handler self this.

Definition onKeyDown (self : ref) (this : t) (e : KeyboardEvent) : M () :=
  if String.eqb (code e) "Enter" then call_handler self this else ret ().

(** The guard names [buttonText], not [this.buttonText]: the message is
    built from the global of that name, and the lookup raises a
    ReferenceError when there is none. *)
Definition onBtnClick (env : Platform) (self : ref) (this : t) : M () :=
  if negb (bool_decide (is_Some (handler this))) then
    match global_buttonText env with
    | Some b => perform (LogErr ("Handler for " +:+ b +:+ " is not set."))
    | None => throw ReferenceError
    end
  else Submit self this.

Definition SetButtonHandler (h : option callback) (this : t) : t :=
  {| id := id this; name := name this; fields := fields this;
     isEventControl := isEventControl this; buttonText := buttonText this;
     handler := h; renderRoot := renderRoot this |}.

(** [async GetFieldValue(fieldName)]: the outcome is that of the
    returned promise.  A [null] query result makes [field.type] throw. *)
Definition GetFieldValue (this : t) (fieldName : string) : outcome jsval :=
  match renderRoot this with
  | None => AwaitsRender
  | Some root =>
      match querySelector root ("#" +:+ fieldName) with
      | OutsideFragment => Unmodelled
      | NoMatch => Throws TypeError
      | Matched _ field =>
          if type_is field "checkbox" then Returns (get_checked field)
          else if type_is field "select-multiple" then Returns (get_options field)
          else Returns (get_value field)
      end
  end.

(** The closure [updateValue] of [UpdateFieldValue], run on a render
    root: the new children of the root. *)
Definition updateValue (env : Platform) (root : list Template)
    (fieldName : string) (value : jsval) : outcome (list Template) :=
  match querySelector root ("#" +:+ fieldName) with
  | OutsideFragment => Unmodelled
  | NoMatch => Throws TypeError
  | Matched pos field =>
      if type_is field "checkbox" then
        Returns (<[pos := TElement (set_checked value field)]> root)
      else if type_is field "div" then
        Returns (<[pos := TElement (set_innerText value field)]> root)
      else if type_is field "select" then
        Returns root
      else
        Returns (<[pos := TElement (set_value env value field)]> root)
  end.

(** [UpdateFieldValue(fieldName, value)]: before the first render the
    update is queued on [updateComplete] and nothing changes yet. *)
Definition UpdateFieldValue (env : Platform) (this : t)
    (fieldName : string) (value : jsval) : outcome t :=
  match renderRoot this with
  | None => AwaitsRender
  | Some root =>
      match updateValue env root fieldName value with
      | Returns root' => Returns (with_root this root')
      | Throws e => Throws e
      | AwaitsRender => AwaitsRender
      | Unmodelled => Unmodelled
      end
  end.

End ControlElement.

(** ** ControlGroupElement (controlGroupElement.js) *)

Module GroupParams.
Record t := mk {
  heading : option string;
  controls : option (list ref);
  expanded : option bool
}.
End GroupParams.

Module ControlGroupElement.

(** The state of one group.  [controls] holds references: the children
    are the objects themselves, shared with whoever else holds them. *)
Record t := mk {
  heading : option string;
  depth : nat;
  expanded : bool;
  controls : list ref
}.

(** What a reference can point to.  [instanceof ControlGroupElement]
    holds of the second kind only. *)
Inductive object :=
| Control (c : ControlElement.t)
| ControlGroup (g : t).

Abbreviation store := (gmap ref object).

Definition is_group (s : store) (r : ref) : Prop :=
  ∃ g, s !! r = Some (ControlGroup g).

Definition constructor (params : GroupParams.t) : t :=
  {| heading := GroupParams.heading params;
     depth := 0;
     controls := default [] (GroupParams.controls params);
     expanded := default true (GroupParams.expanded params) |}.

Definition with_depth (d : nat) (o : object) : object :=
  match o with
  | ControlGroup g =>
      ControlGroup {| heading := heading g; depth := d;
                      expanded := expanded g; controls := controls g |}
  | Control c => Control c
  end.

Definition with_expanded (b : bool) (o : object) : object :=
  match o with
  | ControlGroup g =>
      ControlGroup {| heading := heading g; depth := depth g;
                      expanded := b; controls := controls g |}
  | Control c => Control c
  end.

Definition with_pushed (control : ref) (o : object) : object :=
  match o with
  | ControlGroup g =>
      ControlGroup {| heading := heading g; depth := depth g;
                      expanded := expanded g; controls := controls g ++ [control] |}
  | Control c => Control c
  end.

(** The methods act on the group at reference [this] in the store. *)
Definition AddControl (this control : ref) (s : store) : store :=
  alter (with_pushed control) this s.

Definition SetGroupDepth (this : ref) (d : nat) (s : store) : store :=
  alter (with_depth d) this s.

Definition toggleCollapseGroup (this : ref) (s : store) : store :=
  match s !! this with
  | Some (ControlGroup g) => alter (with_expanded (negb (expanded g))) this s
  | _ => s
  end.

(** The output of [render]: the classes and text of the title row, the
    classes of the child region, and the children in order. *)
Record Rendered := mkRendered {
  titleClasses : list string;
  indicator : string;
  title : option string;
  controlsClasses : list string;
  children : list ref
}.

(** The callback of [this.#controls.map] inside [render]: a child that
    is a group receives [this.depth + 1], with [this.depth] read at that
    moment. *)
Definition render_child (this : ref) (s : store) (control : ref) : store :=
  match s !! control with
  | Some (ControlGroup _) =>
      match s !! this with
      | Some (ControlGroup g) => SetGroupDepth control (depth g + 1) s
      | _ => s
      end
  | _ => s
  end.

Definition render (this : ref) (s : store) : option (Rendered * store) :=
  match s !! this with
  | Some (ControlGroup g) =>
      let controlsClasses :=
        "controls" :: (if negb (expanded g) then ["collapsed"] else []) in
      let titleClasses := ["title"; "depth" +:+ pretty (depth g)] in
      Some ({| titleClasses := titleClasses;
               indicator := if expanded g then "[-]" else "[+]";
               title := heading g;
               controlsClasses := controlsClasses;
               children := controls g |},
            foldl (render_child this) s (controls g))
  | _ => None
  end.

(** [for (const x of xs) body(x)], where the body may fail to return. *)
Fixpoint for_of {S : Type} (xs : list ref) (body : ref → S → option S) (s : S) : option S :=
  match xs with
  | [] => Some s
  | x :: xs' =>
      match body x s with
      | Some s' => for_of xs' body s'
      | None => None
      end
  end.

(** [SetExpanded(expanded)]: the recursion follows references, so the
    model bounds its depth by [fuel]; [None] is a call that does not
    return within that bound (or a receiver that is not a group). *)
Fixpoint SetExpanded (fuel : nat) (this : ref) (b : bool) (s : store) : option store :=
  match fuel with
  | 0 => None
  | S fuel' =>
      match s !! this with
      | Some (ControlGroup g) =>
          match for_of (controls g)
                  (λ control s1,
                     match s1 !! control with
                     | Some (ControlGroup _) => SetExpanded fuel' control b s1
                     | _ => Some s1
                     end) s with
          | Some s' => Some (alter (with_expanded b) this s')
          | None => None
          end
      | _ => None
      end
  end.

(** The group stored at [r], if [r] holds a group. *)
Definition group_at (s : store) (r : ref) : option t :=
  match s !! r with
  | Some (ControlGroup g) => Some g
  | _ => None
  end.

(** [child s p c]: [c] is a group among the children of the group [p]. *)
Definition child (s : store) (p c : ref) : Prop :=
  ∃ g, s !! p = Some (ControlGroup g) ∧ c ∈ controls g ∧ is_group s c.

(** [descendant s p x]: [x] is [p] or a group nested below it. *)
Definition descendant (s : store) : ref → ref → Prop := rtc (child s).

(** A store is ranked by [rank] when every child group ranks strictly
    below its parent: the groups form a forest or a DAG, with no cycle. *)
Definition ranked (rank : ref → nat) (s : store) : Prop :=
  map_Forall (λ p o,
    match o with
    | ControlGroup g =>
        Forall (λ c, match s !! c with
                     | Some (ControlGroup _) => rank c < rank p
                     | _ => True
                     end) (controls g)
    | Control _ => True
    end) s.

(** [touched b s s']: every object of [s'] is the one of [s], possibly
    with [expanded] set to [b]. *)
Definition touched (b : bool) (s s' : store) : Prop :=
  ∀ x, s' !! x = s !! x ∨ s' !! x = with_expanded b <$> s !! x.

(** What one call of [SetExpanded] on [this] achieves, from [s] to [s']:
    [expanded] is set on [this] and on every group below it, and nothing
    else changes. *)
Definition expanded_below (b : bool) (this : ref) (s s' : store) : Prop :=
  touched b s s' ∧
  (∀ x, descendant s this x → s' !! x = with_expanded b <$> s !! x) ∧
  (∀ x, ¬ descendant s this x → s' !! x = s !! x).

(** The body of the loop of [SetExpanded], at recursion bound [fuel]. *)
Definition loop_body (b : bool) (fuel : nat) (control : ref) (s1 : store) : option store :=
  match s1 !! control with
  | Some (ControlGroup _) => SetExpanded fuel control b s1
  | _ => Some s1
  end.

(** A sequence of [parent.AddControl(child)] calls, in order.  Adding a
    child that another group already holds is how a group comes to sit
    under a different parent. *)
Definition AddControls (calls : list (ref * ref)) (s : store) : store :=
  foldl (λ s1 pc, AddControl pc.1 pc.2 s1) s calls.

End ControlGroupElement.

(** ** Vocabulary of the statements, and the controls used as examples *)

Definition is_button (t : Template) : bool :=
  match t with
  | TElement (Button _ _ _) => true
  | _ => false
  end.

(** The render output contains a [<button>]. *)
Definition has_button (root : list Template) : bool := existsb is_button root.

(** The options of a collection that are currently selected. *)
Definition selected_options (os : list OptionEl) : list OptionEl :=
  List.filter opt_selected os.

(** A page that defines no global [buttonText] and whose inputs keep
    the text they are given. *)
Definition plain_page : Platform := mkPlatform (λ _ v, v) None.

(** Fields of the [ContextMenusCreateProperties] control of the test
    application. *)
Definition checked_field : Field.t :=
  Field.mk (Some "checked") "checkbox" None false [] false None.

Definition contexts_field : Field.t :=
  Field.mk (Some "contexts") "select" None false
    ["all"; "page"; "frame"; "selection"; "link"; "editable"; "image"; "video"; "audio"]
    true None.

Definition type_field : Field.t :=
  Field.mk (Some "type") "select" None false
    ["normal"; "checkbox"; "radio"; "separator"] false None.

Definition create_properties_params : Params.t :=
  Params.mk None (Some [checked_field; contexts_field; type_field]) None None None.

(** A checkbox whose DOM id is overridden, as the application does for
    its [preventDefault] field. *)
Definition enabled_field : Field.t :=
  Field.mk (Some "enabled") "checkbox" None false [] false (Some "enabled_chk").

Definition enabled_params : Params.t :=
  Params.mk None (Some [enabled_field]) None None None.

(** A named control with a handler, and one without. *)
Definition recreate_params : Params.t :=
  Params.mk (Some "Recreate Controlled Frame") None None (Some "Recreate") (Some 7).

Definition unwired_params : Params.t :=
  Params.mk (Some "Update ServiceWorker") None None (Some "Update") None.

(** An event control that nevertheless has a handler bound. *)
Definition event_params : Params.t :=
  Params.mk None (Some [checked_field]) (Some true) None (Some 7).

(** The control built from [params] once it has rendered; [None] when
    the constructor throws. *)
Definition rendered (env : Platform) (params : Params.t) : option ControlElement.t :=
  match ControlElement.constructor params with
  | Returns c => Some (ControlElement.firstUpdate env c)
  | _ => None
  end.

(** The DOM id [renderField] gives the widget of a field: the [id] of
    the descriptor when it has one, else its [name]. *)
Definition dom_id (field : Field.t) : string :=
  match Field.id field with
  | Some i => i
  | None => default "" (Field.name field)
  end.

(** The widget [renderField] produces for a field, next to its label. *)
Definition field_widget (env : Platform) (field : Field.t) : Element :=
  if String.eqb (Field.type field) "checkbox" then
    Input (dom_id field) (Field.type field) "on" (Field.checked field)
  else if String.eqb (Field.type field) "select" then
    Select (dom_id field) (Field.multiple field)
      (ControlElement.initial_options (Field.multiple field) (Field.options field))
  else if String.eqb (Field.type field) "div" then
    Div (dom_id field) "" None
  else
    Input (dom_id field) (Field.type field)
      (sanitize env (input_type_idl (Field.type field)) (default "" (Field.value field)))
      false.

(** The scenario of the specification: a single text field [src]. *)
Definition src_params : Params.t :=
  Params.mk None
    (Some [Field.mk (Some "src") "text" (Some "https://a.com") false [] false None])
    None None None.

(** The scenario of the specification: groups A, B and C nested in that
    order, each holding one control, all freshly constructed (depth 0).
    A is at reference 1, B at 2, C at 3; the controls are at 5, 6, 7. *)
Definition leaf_control : ControlElement.t :=
  ControlElement.mk "src_control" None [] false "Call" None None.

Definition tree_store : ControlGroupElement.store :=
  <[1 := ControlGroupElement.ControlGroup (ControlGroupElement.mk (Some "A") 0 true [2; 5])]>
  (<[2 := ControlGroupElement.ControlGroup (ControlGroupElement.mk (Some "B") 0 false [3; 6])]>
  (<[3 := ControlGroupElement.ControlGroup (ControlGroupElement.mk (Some "C") 0 true [7])]>
  (<[5 := ControlGroupElement.Control leaf_control]>
  (<[6 := ControlGroupElement.Control leaf_control]>
  (<[7 := ControlGroupElement.Control leaf_control]> ∅))))).

Definition tree_rank (r : ref) : nat := 3 - r.

(** The ids of the widgets of a render root, in document order. *)
Definition widget_ids (root : list Template) : list string :=
  flat_map (λ t, match t with
                 | TElement e => [element_id e]
                 | TLabel _ _ => []
                 end) root.

(** ** Callers in the application (controlledframe_api.js, main.js) *)

(** [str.startsWith(searchString)]. *)
Fixpoint startsWith (str searchString : string) {struct searchString} : bool :=
  match searchString with
  | EmptyString => true
  | String c rest =>
      match str with
      | String d str' => Ascii.eqb c d && startsWith str' rest
      | EmptyString => false
      end
  end.

Definition prependHTTPSProtocol (str : string) : string :=
  if negb (startsWith str "http://") && negb (startsWith str "https://")
  then "https://" +:+ str
  else str.




(** [expandAllControls(expanded)] of main.js: [groups] are the elements
    [document.querySelectorAll('control-group-element')] returns, each of
    which receives [SetExpanded(expanded)], in order. *)
Definition expandAllControls (fuel : nat) (groups : list ref) (expanded : bool)
    (s : ControlGroupElement.store) : option ControlGroupElement.store :=
  ControlGroupElement.for_of groups
    (λ group s1, ControlGroupElement.SetExpanded fuel group expanded s1) s.

(** [changed_within P b s s']: an object of [s'] differs from the one of
    [s] only at a reference in [P], and then only by [expanded] set to [b]. *)
Definition changed_within (P : ref → Prop) (b : bool)
    (s s' : ControlGroupElement.store) : Prop :=
  ∀ x, s' !! x = s !! x ∨
       (P x ∧ s' !! x = ControlGroupElement.with_expanded b <$> s !! x).

(** A store in which the group at 1 lists itself among its children. *)
Definition knot_store : ControlGroupElement.store :=
  <[1 := ControlGroupElement.ControlGroup (ControlGroupElement.mk (Some "A") 0 true [5; 1])]>
  (<[5 := ControlGroupElement.Control leaf_control]> ∅).

(** * Properties of ControlElement *)

Section ControlElementProperties.
Import ControlElement.
Variable env : Platform.

Lemma call_handler_bound self this h tr :
  handler this = Some h →
  call_handler self this tr = (Returns (), tr ++ [Call h self]).
Proof. intros Hh. unfold call_handler. by rewrite Hh. Qed.

Lemma call_handler_unbound self this tr :
  handler this = None →
  call_handler self this tr = (Throws TypeError, tr).
Proof. intros Hh. unfold call_handler. by rewrite Hh. Qed.

(** With no handler bound, [Submit] propagates the TypeError of the call
    and writes nothing to the log, whatever the control. *)
Lemma Submit_unbound self this tr :
  handler this = None → Submit self this tr = (Throws TypeError, tr).
Proof. apply call_handler_unbound. Qed.

(** The constructor keeps the handler it is given. *)
Lemma constructor_handler params this :
  constructor params = Returns this → handler this = Params.handler params.
Proof.
  unfold constructor. intros H.
  destruct (Params.name params); [|destruct (Params.fields params) as [[|f fs]|];
    [|destruct (Field.name f)|]]; by simplify_eq.
Qed.

(** The constructor throws exactly when no name is given and the first
    field cannot supply one. *)
Lemma constructor_throws params :
  (∃ e, constructor params = Throws e) ↔
  Params.name params = None ∧
  (Params.fields params = None ∨ Params.fields params = Some [] ∨
   ∃ f fs, Params.fields params = Some (f :: fs) ∧ Field.name f = None).
Proof.
  unfold constructor. split.
  - intros [e H].
    destruct (Params.name params); [done|]. split; [done|].
    destruct (Params.fields params) as [[|f fs]|]; [by right; left| |by left].
    right; right. exists f, fs. split; [done|]. by destruct (Field.name f).
  - intros [-> [->|[->|(f & fs & -> & ->)]]]; by eexists.
Qed.

(** With the name omitted, the id is the first field's name followed by
    [_control]. *)
Lemma constructor_id_from_field params f fs n :
  Params.name params = None →
  Params.fields params = Some (f :: fs) →
  Field.name f = Some n →
  ∃ this, constructor params = Returns this ∧ id this = n +:+ "_control".
Proof.
  intros Hn Hf Hfn. unfold constructor. rewrite Hn, Hf, Hfn. by eexists.
Qed.

(** With a name given, the id prefix stays empty. *)
Lemma constructor_id_named params n :
  Params.name params = Some n →
  ∃ this, constructor params = Returns this ∧ id this = "_control".
Proof. intros Hn. unfold constructor. rewrite Hn. by eexists. Qed.

Lemma has_button_app (xs ys : list Template) :
  has_button (xs ++ ys) = has_button xs || has_button ys.
Proof. apply existsb_app. Qed.

Lemma renderField_no_button field : has_button (renderField env field) = false.
Proof.
  unfold renderField.
  repeat (case (String.eqb _ _)); by rewrite has_button_app.
Qed.

Lemma renderFields_no_button this : has_button (renderFields env this) = false.
Proof.
  unfold renderFields. induction (fields this) as [|f fs IH]; [done|].
  simpl. by rewrite has_button_app, renderField_no_button, IH.
Qed.

Lemma maybeRenderButton_button this :
  has_button (maybeRenderButton this) =
  negb (isEventControl this) && bool_decide (is_Some (handler this)).
Proof.
  unfold maybeRenderButton.
  destruct (isEventControl this); [done|].
  destruct (bool_decide (is_Some (handler this))); [|done].
  simpl. rewrite has_button_app. by rewrite orb_true_r.
Qed.

(** Position and id of the element that [find_by_id] returns. *)
Lemma find_by_id_lookup root i k pos e :
  find_by_id root i k = Some (pos, e) →
  k ≤ pos ∧ root !! (pos - k) = Some (TElement e) ∧ element_id e = i.
Proof.
  revert k. induction root as [|t root IH]; intros k; [done|].
  destruct t as [lf lt|e0]; simpl.
  - intros H. destruct (IH _ H) as (Hk & Hl & Hid).
    split; [lia|]. split; [|done].
    by replace (pos - k) with (S (pos - S k)) by lia.
  - destruct (String.eqb (element_id e0) i) eqn:Heq.
    + intros [= <- <-]. apply String.eqb_eq in Heq.
      by rewrite Nat.sub_diag.
    + intros H. destruct (IH _ H) as (Hk & Hl & Hid).
      split; [lia|]. split; [|done].
      by replace (pos - k) with (S (pos - S k)) by lia.
Qed.

(** Replacing the found element by one with the same id leaves it the
    first match. *)
Lemma find_by_id_insert root i k pos e e' :
  find_by_id root i k = Some (pos, e) →
  element_id e' = i →
  find_by_id (<[pos - k := TElement e']> root) i k = Some (pos, e').
Proof.
  revert k. induction root as [|t root IH]; intros k; [done|].
  destruct t as [lf lt|e0]; simpl.
  - intros H Hid. destruct (find_by_id_lookup _ _ _ _ _ H) as (Hk & _ & _).
    replace (pos - k) with (S (pos - S k)) by lia. simpl. by apply IH.
  - destruct (String.eqb (element_id e0) i) eqn:Heq.
    + intros [= <- <-] Hid. rewrite Nat.sub_diag. simpl.
      apply String.eqb_eq in Hid. by rewrite Hid.
    + intros H Hid. destruct (find_by_id_lookup _ _ _ _ _ H) as (Hk & _ & _).
      replace (pos - k) with (S (pos - S k)) by lia. simpl.
      rewrite Heq. by apply IH.
Qed.

Lemma querySelector_id root n pos e :
  css_ident n = true →
  find_by_id root n 0 = Some (pos, e) →
  querySelector root ("#" +:+ n) = Matched pos e.
Proof.
  intros Hn Hf. change ("#" +:+ n) with (String "#" n).
  unfold querySelector. by rewrite Hn, Hf.
Qed.

End ControlElementProperties.

(** ** Submit, the Enter key and the button *)

(** C9.  [Submit()] on a control whose bound handler is [h] calls [h]
    exactly once and passes the control itself as the only argument: the
    trace grows by the single call [Call h self], and the call returns. *)
Theorem Submit_calls_handler_once (self : ref) (this : ControlElement.t) (h : callback) :
  ControlElement.handler this = Some h →
  ∀ tr, ControlElement.Submit self this tr = (Returns (), tr ++ [Call h self]).
Proof. intros Hh tr. by apply call_handler_bound. Qed.

Lemma Submit_calls_handler_once_witness :
  ∃ this, ControlElement.constructor recreate_params = Returns this ∧
          run (ControlElement.Submit 1 this) = (Returns (), [Call 7 1]).
Proof.
  eexists. split; [reflexivity|].
  apply (Submit_calls_handler_once 1 _ 7). reflexivity.
Defined.

(** C1.  [Submit()] on a control with no bound handler: the control
    built from [unwired_params] has no handler, and its [Submit()] ends
    in a TypeError with nothing written to the log. *)
Theorem Submit_without_handler_throws :
  ∃ this, ControlElement.constructor unwired_params = Returns this ∧
          ControlElement.handler this = None ∧
          run (ControlElement.Submit 1 this) = (Throws TypeError, []).
Proof. eexists. by repeat split. Qed.

(** C2, as stated, fails: on an event control that has a handler bound,
    Enter calls the handler; it is not without effect. *)
Lemma Enter_on_event_control_calls_handler :
  ∃ this, ControlElement.constructor event_params = Returns this ∧
          ControlElement.isEventControl this = true ∧
          run (ControlElement.onKeyDown 1 this (mkKey "Enter")) = (Returns (), [Call 7 1]) ∧
          run (ControlElement.onKeyDown 1 this (mkKey "Enter")) ≠ (Returns (), []).
Proof. eexists. by repeat split. Qed.

(** C2, amended.  On a control with a bound handler [h], whether or not
    it is an event control, a [keydown] whose code is Enter does exactly
    what a click on the submit button does: one call of [h] with the
    control as argument.  Any other key does nothing. *)
Theorem Enter_is_click_when_bound (env : Platform) (self : ref)
    (this : ControlElement.t) (h : callback) (e : KeyboardEvent) :
  ControlElement.handler this = Some h →
  (code e = "Enter" →
     ∀ tr, ControlElement.onKeyDown self this e tr = ControlElement.onBtnClick env self this tr ∧
           ControlElement.onKeyDown self this e tr = (Returns (), tr ++ [Call h self])) ∧
  (code e ≠ "Enter" →
     ∀ tr, ControlElement.onKeyDown self this e tr = (Returns (), tr)).
Proof.
  intros Hh. unfold ControlElement.onKeyDown, ControlElement.onBtnClick, ControlElement.Submit.
  split.
  - intros -> tr. simpl. rewrite Hh. simpl.
    split; [done|]. by apply call_handler_bound.
  - intros Hne tr. apply String.eqb_neq in Hne. by rewrite Hne.
Qed.

Lemma Enter_is_click_when_bound_witness :
  ∃ this, ControlElement.constructor recreate_params = Returns this ∧
          run (ControlElement.onKeyDown 1 this (mkKey "Enter")) =
            run (ControlElement.onBtnClick plain_page 1 this) ∧
          run (ControlElement.onKeyDown 1 this (mkKey "Enter")) = (Returns (), [Call 7 1]) ∧
          run (ControlElement.onKeyDown 1 this (mkKey "KeyA")) = (Returns (), []).
Proof.
  eexists. split; [reflexivity|]. unfold run. split; [|split].
  - refine (proj1 (proj1 (Enter_is_click_when_bound plain_page 1 _ 7 (mkKey "Enter") _) eq_refl [])).
    reflexivity.
  - refine (proj2 (proj1 (Enter_is_click_when_bound plain_page 1 _ 7 (mkKey "Enter") _) eq_refl [])).
    reflexivity.
  - refine (proj2 (Enter_is_click_when_bound plain_page 1 _ 7 (mkKey "KeyA") _) _ []).
    + reflexivity.
    + discriminate.
Defined.

(** C10.  The render output contains a submit button exactly when the
    control is not an event control and a handler is bound; a control
    constructed without a handler therefore renders no button, event
    control or not. *)
Theorem button_rendered_iff (env : Platform) :
  (∀ this, has_button (ControlElement.render env this) = true ↔
           ControlElement.isEventControl this = false ∧
           is_Some (ControlElement.handler this)) ∧
  (∀ params this,
     ControlElement.constructor params = Returns this →
     Params.handler params = None →
     has_button (ControlElement.render env this) = false).
Proof.
  assert (Hb : ∀ this, has_button (ControlElement.render env this) =
                 negb (ControlElement.isEventControl this) &&
                 bool_decide (is_Some (ControlElement.handler this))).
  { intros this. unfold ControlElement.render.
    by rewrite has_button_app, renderFields_no_button, maybeRenderButton_button. }
  split.
  - intros this. rewrite Hb, andb_true_iff, negb_true_iff, bool_decide_eq_true. done.
  - intros params this Hc Hp. rewrite Hb.
    rewrite (constructor_handler _ _ Hc), Hp.
    by rewrite andb_false_r.
Qed.

Lemma button_rendered_iff_witness :
  ∃ this, ControlElement.constructor unwired_params = Returns this ∧
          has_button (ControlElement.render plain_page this) = false.
Proof.
  eexists. split; [reflexivity|].
  apply (proj2 (button_rendered_iff plain_page) unwired_params); reflexivity.
Defined.

(** ** The constructor *)

(** C8.  A control constructed with a group-level name: the constructor
    succeeds, and the id is the bare suffix [_control]; the name is not
    part of it. *)
Theorem constructor_named_id_ignores_name :
  ∃ this, ControlElement.constructor recreate_params = Returns this ∧
          ControlElement.name this = Some "Recreate Controlled Frame" ∧
          ControlElement.id this = "_control" ∧
          ControlElement.id this ≠ "Recreate Controlled Frame_control".
Proof. eexists. by repeat split. Qed.

(** ** The widgets of a freshly rendered control *)

Section RenderedFields.
Import ControlElement.
Variable env : Platform.

Lemma renderField_shape field :
  renderField env field =
  [TLabel (Field.name field) (default "" (Field.name field));
   TElement (field_widget env field)].
Proof.
  unfold renderField, field_widget, dom_id.
  by repeat (case (String.eqb _ _)).
Qed.

Lemma field_widget_id field : element_id (field_widget env field) = dom_id field.
Proof. unfold field_widget. by repeat (case (String.eqb _ _)). Qed.

Lemma find_by_id_app xs ys i k :
  find_by_id (xs ++ ys) i k =
  match find_by_id xs i k with
  | Some r => Some r
  | None => find_by_id ys i (k + length xs)
  end.
Proof.
  revert k. induction xs as [|t xs IH]; intros k; simpl.
  - by rewrite Nat.add_0_r.
  - destruct t as [lf lt|e].
    + rewrite IH. by replace (S k + length xs) with (k + S (length xs)) by lia.
    + destruct (String.eqb (element_id e) i); [done|].
      rewrite IH. by replace (S k + length xs) with (k + S (length xs)) by lia.
Qed.

(** Fields whose DOM id differs from [n] contribute no match. *)
Lemma find_by_id_other_fields pre n k :
  (∀ g, g ∈ pre → dom_id g ≠ n) →
  find_by_id (flat_map (renderField env) pre) n k = None ∧
  length (flat_map (renderField env) pre) = 2 * length pre.
Proof.
  revert k. induction pre as [|g pre IH]; intros k Hne; [done|].
  simpl flat_map. rewrite renderField_shape. simpl.
  rewrite field_widget_id.
  destruct (String.eqb (dom_id g) n) eqn:Heq.
  - apply String.eqb_eq in Heq. destruct (Hne g); [by left|done].
  - destruct (IH (S (S k))) as [Hf Hl]; [intros g' Hg'; apply Hne; by right|].
    split; [done|]. rewrite Hl. lia.
Qed.

(** In the output of [render], the first element with id [n] is the
    widget of the first field whose DOM id is [n]. *)
Lemma find_rendered_field this pre field post n :
  fields this = pre ++ field :: post →
  dom_id field = n →
  (∀ g, g ∈ pre → dom_id g ≠ n) →
  find_by_id (render env this) n 0 = Some (2 * length pre + 1, field_widget env field).
Proof.
  intros Hfs Hid Hpre. unfold render, renderFields. rewrite Hfs.
  rewrite flat_map_app. simpl flat_map. rewrite renderField_shape.
  rewrite <-!app_assoc, find_by_id_app.
  destruct (find_by_id_other_fields pre n 0 Hpre) as [-> ->].
  simpl. rewrite field_widget_id, Hid, String.eqb_refl.
  do 2 f_equal. lia.
Qed.

(** A write to a checkbox found under [n], then a read of it. *)
Lemma checkbox_roundtrip this root n pos i a v c b :
  renderRoot this = Some root →
  css_ident n = true →
  find_by_id root n 0 = Some (pos, Input i a v c) →
  input_type_idl a = "checkbox" →
  ∃ this', UpdateFieldValue env this n (JBool b) = Returns this' ∧
           GetFieldValue this' n = Returns (JBool b).
Proof.
  intros Hr Hn Hf Ha.
  assert (Hty : ∀ c', type_is (Input i a v c') "checkbox" = true).
  { intros c'. unfold type_is. simpl. rewrite Ha. by apply bool_decide_eq_true. }
  unfold UpdateFieldValue, updateValue.
  rewrite Hr, (querySelector_id _ _ _ _ Hn Hf), Hty.
  eexists. split; [reflexivity|].
  unfold GetFieldValue. simpl renderRoot.
  destruct (find_by_id_lookup _ _ _ _ _ Hf) as (_ & _ & Hid).
  pose proof (find_by_id_insert root n 0 pos (Input i a v c) (Input i a v b) Hf Hid) as Hf'.
  rewrite Nat.sub_0_r in Hf'. simpl set_checked.
  by rewrite (querySelector_id _ _ _ _ Hn Hf'), Hty.
Qed.

(** On a control that has just rendered, a checkbox field is read back
    as written, provided no earlier field shares its DOM id. *)
Lemma checkbox_field_roundtrip this pre field post n b :
  renderRoot this = None →
  fields this = pre ++ field :: post →
  Field.type field = "checkbox" →
  dom_id field = n →
  css_ident n = true →
  (∀ g, g ∈ pre → dom_id g ≠ n) →
  ∃ this', UpdateFieldValue env (firstUpdate env this) n (JBool b) = Returns this' ∧
           GetFieldValue this' n = Returns (JBool b).
Proof.
  intros Hr Hfs Hty Hid Hn Hpre.
  pose proof (find_rendered_field this pre field post n Hfs Hid Hpre) as Hf.
  unfold field_widget in Hf. rewrite Hty in Hf. simpl in Hf.
  eapply checkbox_roundtrip; [|done|exact Hf|done].
  unfold firstUpdate. by rewrite Hr.
Qed.

(** On a control that has just rendered, reading a multiple select
    yields all the options of its descriptor, none of them selected. *)
Lemma multi_select_field_read this pre field post n :
  renderRoot this = None →
  fields this = pre ++ field :: post →
  Field.type field = "select" →
  Field.multiple field = true →
  dom_id field = n →
  css_ident n = true →
  (∀ g, g ∈ pre → dom_id g ≠ n) →
  GetFieldValue (firstUpdate env this) n =
    Returns (JOptions (initial_options true (Field.options field))).
Proof.
  intros Hr Hfs Hty Hm Hid Hn Hpre.
  pose proof (find_rendered_field this pre field post n Hfs Hid Hpre) as Hf.
  unfold field_widget in Hf. rewrite Hty, Hm in Hf. simpl in Hf.
  unfold GetFieldValue, firstUpdate. rewrite Hr. simpl renderRoot. cbv beta iota.
  by rewrite (querySelector_id _ _ _ _ Hn Hf).
Qed.

End RenderedFields.

(** ** Reading and writing fields *)

(** C3, as stated, fails: on the freshly rendered properties control no
    context is selected, yet reading [contexts] yields all nine options. *)
Lemma multi_select_read_is_not_the_selection :
  ∃ this os, rendered plain_page create_properties_params = Some this ∧
             ControlElement.GetFieldValue this "contexts" = Returns (JOptions os) ∧
             length os = 9 ∧
             selected_options os = [] ∧
             ControlElement.GetFieldValue this "contexts" ≠ Returns (JOptions (selected_options os)).
Proof. do 2 eexists. by repeat split. Qed.

(** C3, amended.  On a rendered control, when the first widget whose id
    is [n] is a select with [multiple] set, [GetFieldValue(n)] returns
    the widget's whole [options] collection: every available option, in
    order, each with its current selectedness.  The selected ones are the
    options of that collection whose [selected] flag is set. *)
Theorem GetFieldValue_multi_select (this : ControlElement.t) (root : list Template)
    (n : string) (pos : nat) (i : string) (os : list OptionEl) :
  ControlElement.renderRoot this = Some root →
  css_ident n = true →
  find_by_id root n 0 = Some (pos, Select i true os) →
  ControlElement.GetFieldValue this n = Returns (JOptions os) ∧
  ∀ o, o ∈ selected_options os ↔ o ∈ os ∧ opt_selected o = true.
Proof.
  intros Hr Hn Hf. split.
  - unfold ControlElement.GetFieldValue.
    by rewrite Hr, (querySelector_id _ _ _ _ Hn Hf).
  - intros o. unfold selected_options.
    rewrite !list_elem_of_In, filter_In. done.
Qed.

Lemma GetFieldValue_multi_select_witness :
  ∃ this os, rendered plain_page create_properties_params = Some this ∧
             ControlElement.GetFieldValue this "contexts" = Returns (JOptions os) ∧
             map opt_value os = Field.options contexts_field.
Proof.
  do 2 eexists. split; [reflexivity|]. split.
  - refine (proj1 (GetFieldValue_multi_select _ _ "contexts" 3 "contexts" _ _ _ _));
      reflexivity.
  - reflexivity.
Defined.

(** C6, as stated, fails: a checkbox field named [enabled] whose DOM id
    is overridden is not found under its name, and both the write and
    the read throw. *)
Lemma checkbox_under_other_id_is_not_found :
  ∃ this, rendered plain_page enabled_params = Some this ∧
          ControlElement.fields this = [enabled_field] ∧
          Field.name enabled_field = Some "enabled" ∧
          Field.type enabled_field = "checkbox" ∧
          ControlElement.UpdateFieldValue plain_page this "enabled" (JBool true) = Throws TypeError ∧
          ControlElement.GetFieldValue this "enabled" = Throws TypeError.
Proof. eexists. by repeat split. Qed.

(** C6, amended.  On a rendered control, when the first widget whose id
    is [n] is a checkbox input, [UpdateFieldValue(n, b)] returns and a
    following [GetFieldValue(n)] returns [b], for [b] true and for [b]
    false. *)
Theorem checkbox_write_then_read (env : Platform) (this : ControlElement.t)
    (root : list Template) (n : string) (pos : nat)
    (i a v : string) (c b : bool) :
  ControlElement.renderRoot this = Some root →
  css_ident n = true →
  find_by_id root n 0 = Some (pos, Input i a v c) →
  input_type_idl a = "checkbox" →
  ∃ this', ControlElement.UpdateFieldValue env this n (JBool b) = Returns this' ∧
           ControlElement.GetFieldValue this' n = Returns (JBool b).
Proof. intros Hr Hn Hf Ha. by eapply checkbox_roundtrip. Qed.

Lemma checkbox_write_then_read_witness :
  ∃ this this', rendered plain_page create_properties_params = Some this ∧
                ControlElement.UpdateFieldValue plain_page this "checked" (JBool true) = Returns this' ∧
                ControlElement.GetFieldValue this' "checked" = Returns (JBool true).
Proof.
  eexists.
  destruct (checkbox_write_then_read plain_page
              (ControlElement.firstUpdate plain_page
                 (ControlElement.mk "checked_control" None
                    [checked_field; contexts_field; type_field] false "Call" None None))
              _ "checked" 1 "checked" "checkbox" "on" false true
              eq_refl eq_refl eq_refl eq_refl) as (this' & Hu & Hg).
  exists this'. split; [reflexivity|]. split; [exact Hu | exact Hg].
Defined.

(** C7.  [UpdateFieldValue] on a select: the widget reports its type as
    [select-one], the [select] case of the switch is passed over, and
    the assignment to [value] moves the selection from [normal] to
    [radio]. *)
Theorem UpdateFieldValue_select_moves_selection :
  ∃ this this', rendered plain_page create_properties_params = Some this ∧
                ControlElement.UpdateFieldValue plain_page this "type" (JStr "radio") = Returns this' ∧
                ControlElement.GetFieldValue this "type" = Returns (JStr "normal") ∧
                ControlElement.GetFieldValue this' "type" = Returns (JStr "radio") ∧
                ControlElement.renderRoot this' ≠ ControlElement.renderRoot this.
Proof. do 2 eexists. by repeat split. Qed.

(** * Properties of ControlGroupElement *)

Section ControlGroupProperties.
Import ControlGroupElement.

Lemma with_depth_idemp d (o : option object) :
  with_depth d <$> (with_depth d <$> o) = with_depth d <$> o.
Proof. by destruct o as [[c|g]|]. Qed.

Lemma with_expanded_idemp b (o : option object) :
  with_expanded b <$> (with_expanded b <$> o) = with_expanded b <$> o.
Proof. by destruct o as [[c|g]|]. Qed.

(** Seen from the store, the callback of [render] sets the depth of the
    child, and is the identity on a child that is not a group. *)
Lemma render_child_alter this (s : store) g c :
  s !! this = Some (ControlGroup g) →
  render_child this s c = alter (with_depth (depth g + 1)) c s.
Proof.
  intros Hthis. unfold render_child.
  destruct (s !! c) as [[c0|cg]|] eqn:Hc.
  - symmetry. apply alter_id. intros x Hx. by simplify_eq.
  - by rewrite Hthis.
  - symmetry. by apply alter_id'.
Qed.

Lemma render_children_lookup this g cs (s : store) x :
  s !! this = Some (ControlGroup g) →
  this ∉ cs →
  foldl (render_child this) s cs !! x =
    if decide (x ∈ cs) then with_depth (depth g + 1) <$> s !! x else s !! x.
Proof.
  revert s. induction cs as [|c cs IH]; intros s Hthis Hnot.
  - done.
  - apply not_elem_of_cons in Hnot as [Hne Hnot]. simpl foldl.
    rewrite (render_child_alter _ _ _ _ Hthis).
    rewrite IH; [|by rewrite lookup_alter_ne|done].
    rewrite lookup_alter.
    destruct (decide (x ∈ cs)) as [Hin|Hin], (decide (c = x)) as [->|Hcx].
    + rewrite with_depth_idemp. by rewrite decide_True by (by left).
    + by rewrite decide_True by (by right).
    + by rewrite decide_True by (by left).
    + rewrite decide_False; [done|]. intros [?|?]%elem_of_cons; by simplify_eq.
Qed.

(** One render pass of the group at [this]: the group is unchanged,
    every child group gets its depth plus one, nothing else moves. *)
Lemma render_spec (s : store) this g :
  s !! this = Some (ControlGroup g) →
  this ∉ controls g →
  ∃ out s', render this s = Some (out, s') ∧
    children out = controls g ∧
    s' !! this = Some (ControlGroup g) ∧
    (∀ c cg, c ∈ controls g → s !! c = Some (ControlGroup cg) →
       s' !! c = Some (with_depth (depth g + 1) (ControlGroup cg))) ∧
    (∀ x, x ∉ controls g → s' !! x = s !! x) ∧
    (∀ x c, s !! x = Some (Control c) → s' !! x = Some (Control c)).
Proof.
  intros Hthis Hnot. unfold render. rewrite Hthis.
  do 2 eexists. split; [reflexivity|]. split; [done|].
  repeat split.
  - rewrite (render_children_lookup _ g) by done. by rewrite decide_False.
  - intros c cg Hin Hc.
    rewrite (render_children_lookup _ g) by done.
    by rewrite decide_True, Hc.
  - intros x Hx.
    rewrite (render_children_lookup _ g) by done. by rewrite decide_False.
  - intros x c Hx.
    rewrite (render_children_lookup _ g) by done.
    case_decide; by rewrite Hx.
Qed.

End ControlGroupProperties.

(** C4.  Take any store, apply to it any sequence of [AddControl]
    calls, and let the group at [this] have depth [d] and not be listed
    among its own children (as in any tree).  Then a render pass of that
    group returns, leaves the group itself as it was, and leaves every
    direct child group with depth exactly [d + 1], whatever depth the
    child had before and in whichever other group it also sits. *)
Theorem child_depth_after_render (calls : list (ref * ref))
    (s0 : ControlGroupElement.store) (this : ref) (g : ControlGroupElement.t) :
  ControlGroupElement.AddControls calls s0 !! this = Some (ControlGroupElement.ControlGroup g) →
  this ∉ ControlGroupElement.controls g →
  ∃ out s', ControlGroupElement.render this (ControlGroupElement.AddControls calls s0) = Some (out, s') ∧
    s' !! this = Some (ControlGroupElement.ControlGroup g) ∧
    ∀ c cg,
      c ∈ ControlGroupElement.controls g →
      ControlGroupElement.AddControls calls s0 !! c = Some (ControlGroupElement.ControlGroup cg) →
      ∃ cg', s' !! c = Some (ControlGroupElement.ControlGroup cg') ∧
             ControlGroupElement.depth cg' = ControlGroupElement.depth g + 1 ∧
             ControlGroupElement.heading cg' = ControlGroupElement.heading cg ∧
             ControlGroupElement.expanded cg' = ControlGroupElement.expanded cg ∧
             ControlGroupElement.controls cg' = ControlGroupElement.controls cg.
Proof.
  intros Hthis Hnot.
  destruct (render_spec _ _ _ Hthis Hnot) as (out & s' & Hr & _ & Hs & Hc & _).
  exists out, s'. split; [done|]. split; [done|].
  intros c cg Hin Hcg. eexists. split; [by apply Hc|]. done.
Qed.

(** ** SetExpanded *)

Section SetExpandedProperties.
Import ControlGroupElement.
Variable b : bool.
Variable rank : ref → nat.

Lemma touched_refl s : touched b s s.
Proof. intros x. by left. Qed.

Lemma touched_trans s1 s2 s3 : touched b s1 s2 → touched b s2 s3 → touched b s1 s3.
Proof.
  intros H12 H23 x. destruct (H12 x) as [E1|E1], (H23 x) as [E2|E2];
    rewrite E2, E1; rewrite ?with_expanded_idemp; auto.
Qed.

Lemma touched_group s s' x g :
  touched b s s' → s !! x = Some (ControlGroup g) →
  ∃ g', s' !! x = Some (ControlGroup g') ∧ controls g' = controls g.
Proof. intros H Hx. destruct (H x) as [E|E]; rewrite E, Hx; by eexists. Qed.

Lemma touched_group_inv s s' x g' :
  touched b s s' → s' !! x = Some (ControlGroup g') →
  ∃ g, s !! x = Some (ControlGroup g) ∧ controls g' = controls g.
Proof.
  intros H Hx. destruct (H x) as [E|E]; rewrite E in Hx.
  - by eexists.
  - destruct (s !! x) as [[c|g]|]; simplify_eq/=. by eexists.
Qed.

Lemma touched_control s s' x c :
  touched b s s' → s !! x = Some (Control c) → s' !! x = Some (Control c).
Proof. intros H Hx. destruct (H x) as [E|E]; by rewrite E, Hx. Qed.

Lemma touched_is_group s s' x : touched b s s' → is_group s x ↔ is_group s' x.
Proof.
  intros H. split; intros [g Hg].
  - destruct (touched_group _ _ _ _ H Hg) as (g' & ? & _). by exists g'.
  - destruct (touched_group_inv _ _ _ _ H Hg) as (g' & ? & _). by exists g'.
Qed.

Lemma touched_child s s' p c : touched b s s' → child s p c ↔ child s' p c.
Proof.
  intros H. split; intros (g & Hp & Hin & Hc).
  - destruct (touched_group _ _ _ _ H Hp) as (g' & Hp' & Hcs).
    exists g'. rewrite Hcs. by rewrite <-(touched_is_group _ _ _ H).
  - destruct (touched_group_inv _ _ _ _ H Hp) as (g' & Hp' & Hcs).
    exists g'. rewrite <-Hcs. by rewrite (touched_is_group _ _ _ H).
Qed.

Lemma touched_descendant s s' p x :
  touched b s s' → descendant s p x ↔ descendant s' p x.
Proof.
  intros H. unfold descendant.
  split; induction 1 as [|? y ? Hc _ IH]; try apply rtc_refl;
    (eapply rtc_l; [|exact IH]).
  - by apply (touched_child _ _ _ _ H).
  - by apply (touched_child _ _ _ _ H).
Qed.

(** [ranked] read through lookups. *)
Lemma ranked_lookup s p g c :
  ranked rank s → s !! p = Some (ControlGroup g) → c ∈ controls g →
  is_group s c → rank c < rank p.
Proof.
  intros Hr Hp Hin [cg Hc].
  pose proof (map_Forall_lookup_1 _ _ _ _ Hr Hp) as Hall. simpl in Hall.
  rewrite Forall_forall in Hall. specialize (Hall c Hin). by rewrite Hc in Hall.
Qed.

Lemma touched_ranked s s' : touched b s s' → ranked rank s → ranked rank s'.
Proof.
  intros H Hr. apply map_Forall_lookup_2. intros p [c|g'] Hp; [done|].
  apply Forall_forall. intros c Hin.
  destruct (s' !! c) as [[cc|cg']|] eqn:Hc; try done.
  destruct (touched_group_inv _ _ _ _ H Hp) as (g & Hg & Hcs).
  apply (ranked_lookup s p g c); [done|done|by rewrite <-Hcs|].
  apply (touched_is_group _ _ _ H). by eexists.
Qed.

Lemma SetExpanded_unfold fuel this s :
  SetExpanded (S fuel) this b s =
  match s !! this with
  | Some (ControlGroup g) =>
      match for_of (controls g) (loop_body b fuel) s with
      | Some s' => Some (alter (with_expanded b) this s')
      | None => None
      end
  | _ => None
  end.
Proof. reflexivity. Qed.

(** The loop over the children, given that the recursive calls behave. *)
Lemma loop_spec fuel :
  (∀ c s, ranked rank s → is_group s c → rank c < fuel →
     ∃ s', SetExpanded fuel c b s = Some s' ∧ expanded_below b c s s') →
  ∀ cs s,
    ranked rank s →
    (∀ c, c ∈ cs → is_group s c → rank c < fuel) →
    ∃ s', for_of cs (loop_body b fuel) s = Some s' ∧
      touched b s s' ∧
      (∀ x, (∃ c, c ∈ cs ∧ is_group s c ∧ descendant s c x) →
            s' !! x = with_expanded b <$> s !! x) ∧
      (∀ x, (∀ c, c ∈ cs → is_group s c → ¬ descendant s c x) → s' !! x = s !! x).
Proof.
  intros IHfuel. induction cs as [|c cs IH]; intros s Hr Hlt.
  - exists s. split; [done|]. split; [apply touched_refl|].
    split; [|done]. intros x (c & Hin & _). by apply elem_of_nil in Hin.
  - assert (∃ s2, loop_body b fuel c s = Some s2 ∧ touched b s s2 ∧
              (is_group s c → ∀ x, descendant s c x → s2 !! x = with_expanded b <$> s !! x) ∧
              (∀ x, (is_group s c → ¬ descendant s c x) → s2 !! x = s !! x))
      as (s2 & Hbody & Ht2 & Hin2 & Hout2).
    { unfold loop_body. destruct (s !! c) as [[cc|cg]|] eqn:Hc.
      - exists s. split; [done|]. split; [apply touched_refl|].
        split; [|done]. intros [g Hg]. by simplify_eq.
      - destruct (IHfuel c s Hr) as (s2 & Hs2 & Ht & Hd & Hn).
        { by eexists. } { apply Hlt; [by left|by eexists]. }
        exists s2. split; [done|]. split; [done|]. split; [auto|].
        intros x Hx. apply Hn, Hx. by eexists.
      - exists s. split; [done|]. split; [apply touched_refl|].
        split; [|done]. intros [g Hg]. by simplify_eq. }
    destruct (IH s2) as (s' & Hfor & Ht' & Hin' & Hout').
    { by apply (touched_ranked s). }
    { intros c' Hc' Hg'. apply Hlt; [by right|].
      by apply (touched_is_group _ _ _ Ht2). }
    exists s'. split; [simpl; by rewrite Hbody|].
    split; [by apply (touched_trans s s2)|]. split.
    + intros x (c' & Hc' & Hg' & Hd').
      apply elem_of_cons in Hc' as [->|Hc'].
      * destruct (Ht' x) as [E|E]; rewrite E, (Hin2 Hg' x Hd');
          by rewrite ?with_expanded_idemp.
      * rewrite Hin'.
        -- destruct (Ht2 x) as [E|E]; rewrite E; by rewrite ?with_expanded_idemp.
        -- exists c'. split; [done|].
           split; [by apply (touched_is_group _ _ _ Ht2)|].
           by apply (touched_descendant _ _ _ _ Ht2).
    + intros x Hx. rewrite Hout', Hout2; [done| |].
      * intros Hg. apply Hx; [by left|done].
      * intros c' Hc' Hg' Hd'. apply (Hx c'); [by right| |].
        -- by apply (touched_is_group _ _ _ Ht2).
        -- by apply (touched_descendant _ _ _ _ Ht2).
Qed.

(** With a bound above the rank of [this], the call returns and has set
    [expanded] on [this] and on every group below it, and nowhere else. *)
Lemma SetExpanded_spec fuel :
  ∀ this s, ranked rank s → is_group s this → rank this < fuel →
    ∃ s', SetExpanded fuel this b s = Some s' ∧ expanded_below b this s s'.
Proof.
  induction fuel as [|fuel IHfuel]; intros this s Hr [g Hg] Hlt; [lia|].
  rewrite SetExpanded_unfold, Hg.
  destruct (loop_spec fuel IHfuel (controls g) s Hr) as (s' & Hfor & Ht & Hin & Hout).
  { intros c Hc Hgc. pose proof (ranked_lookup s this g c Hr Hg Hc Hgc). lia. }
  rewrite Hfor. eexists. split; [reflexivity|].
  assert (Hthis : alter (with_expanded b) this s' !! this = with_expanded b <$> s !! this).
  { rewrite lookup_alter_eq.
    destruct (Ht this) as [E|E]; rewrite E; by rewrite ?with_expanded_idemp. }
  split; [|split].
  - intros x. destruct (decide (x = this)) as [->|Hne].
    + by right.
    + rewrite lookup_alter_ne by done. apply Ht.
  - intros x Hd. destruct (decide (x = this)) as [->|Hne]; [done|].
    rewrite lookup_alter_ne by done.
    apply rtc_inv in Hd as [->|(c & (g' & Hg' & Hc & Hgc) & Hd)]; [done|].
    simplify_eq. apply Hin. by exists c.
  - intros x Hd. destruct (decide (x = this)) as [->|Hne].
    + destruct Hd. apply rtc_refl.
    + rewrite lookup_alter_ne by done. apply Hout.
      intros c Hc Hgc Hcx. apply Hd.
      eapply rtc_l; [|exact Hcx]. by exists g.
Qed.

End SetExpandedProperties.

(** C5.  On a store whose groups nest without a cycle (they are ranked),
    [SetExpanded(b)] on a group returns once the recursion bound exceeds
    the rank of the group.  It sets [expanded] to [b] on the group and on
    every group nested below it at any depth, keeping their heading,
    depth and children; every control is left as it was, and so is every
    group that is not below the receiver. *)
Theorem SetExpanded_reaches_every_group (rank : ref → nat)
    (s : ControlGroupElement.store) (this : ref) (b : bool) (fuel : nat) :
  ControlGroupElement.ranked rank s →
  ControlGroupElement.is_group s this →
  rank this < fuel →
  ∃ s', ControlGroupElement.SetExpanded fuel this b s = Some s' ∧
    (∀ x g, ControlGroupElement.descendant s this x →
            s !! x = Some (ControlGroupElement.ControlGroup g) →
            s' !! x = Some (ControlGroupElement.ControlGroup
                              (ControlGroupElement.mk (ControlGroupElement.heading g)
                                 (ControlGroupElement.depth g) b
                                 (ControlGroupElement.controls g)))) ∧
    (∀ x c, s !! x = Some (ControlGroupElement.Control c) →
            s' !! x = Some (ControlGroupElement.Control c)) ∧
    (∀ x, ¬ ControlGroupElement.descendant s this x → s' !! x = s !! x).
Proof.
  intros Hr Hg Hlt.
  destruct (SetExpanded_spec b rank fuel this s Hr Hg Hlt) as (s' & Hs & Ht & Hd & Hn).
  exists s'. split; [done|]. split; [|split].
  - intros x g Hx Hxg. by rewrite (Hd x Hx), Hxg.
  - intros x c Hx. by apply (touched_control b s).
  - done.
Qed.

Lemma tree_store_ranked : ControlGroupElement.ranked tree_rank tree_store.
Proof.
  unfold ControlGroupElement.ranked.
  apply map_Forall_lookup_2. intros p o Hp.
  unfold tree_store in Hp.
  repeat (apply lookup_insert_Some in Hp as [[<- <-]|[? Hp]];
          [repeat constructor|]).
  by apply lookup_empty_Some in Hp.
Qed.

Lemma SetExpanded_reaches_every_group_witness :
  ∃ s', ControlGroupElement.SetExpanded 3 1 false tree_store = Some s' ∧
    (∀ x g, ControlGroupElement.descendant tree_store 1 x →
            tree_store !! x = Some (ControlGroupElement.ControlGroup g) →
            s' !! x = Some (ControlGroupElement.ControlGroup
                              (ControlGroupElement.mk (ControlGroupElement.heading g)
                                 (ControlGroupElement.depth g) false
                                 (ControlGroupElement.controls g)))) ∧
    (∀ x c, tree_store !! x = Some (ControlGroupElement.Control c) →
            s' !! x = Some (ControlGroupElement.Control c)) ∧
    (∀ x, ¬ ControlGroupElement.descendant tree_store 1 x → s' !! x = tree_store !! x).
Proof.
  apply (SetExpanded_reaches_every_group tree_rank tree_store 1 false 3).
  - exact tree_store_ranked.
  - eexists. reflexivity.
  - unfold tree_rank. simpl. lia.
Defined.

Lemma child_depth_after_render_witness :
  ∃ out s', ControlGroupElement.render 2 (ControlGroupElement.AddControls [(1, 3)] tree_store) = Some (out, s') ∧
    ∃ cg', s' !! 3 = Some (ControlGroupElement.ControlGroup cg') ∧
           ControlGroupElement.depth cg' = 1.
Proof.
  destruct (child_depth_after_render [(1, 3)] tree_store 2
              (ControlGroupElement.mk (Some "B") 0 false [3; 6]))
    as (out & s' & Hr & _ & Hc).
  - reflexivity.
  - compute_done.
  - exists out, s'. split; [exact Hr|].
    destruct (Hc 3 (ControlGroupElement.mk (Some "C") 0 true [7])) as (cg' & H3 & Hd & _).
    + by left.
    + reflexivity.
    + exists cg'. split; [exact H3 | exact Hd].
Defined.

(** ** The scenarios of the specification, run on the model *)

(** A text field reads back its initial value, then the value written. *)
Example src_scenario :
  ∃ this this', rendered plain_page src_params = Some this ∧
                ControlElement.GetFieldValue this "src" = Returns (JStr "https://a.com") ∧
                ControlElement.UpdateFieldValue plain_page this "src" (JStr "https://b.com") = Returns this' ∧
                ControlElement.GetFieldValue this' "src" = Returns (JStr "https://b.com").
Proof. do 2 eexists. by repeat split. Qed.

(** Rendering A at depth 0 and then B gives B depth 1 and C depth 2. *)
Example nested_depths_scenario :
  ∃ outA s1 outB s2,
    ControlGroupElement.render 1 tree_store = Some (outA, s1) ∧
    ControlGroupElement.render 2 s1 = Some (outB, s2) ∧
    ControlGroupElement.depth <$> ControlGroupElement.group_at s2 1 = Some 0 ∧
    ControlGroupElement.depth <$> ControlGroupElement.group_at s2 2 = Some 1 ∧
    ControlGroupElement.depth <$> ControlGroupElement.group_at s2 3 = Some 2.
Proof. do 4 eexists. by repeat split. Qed.

(** After [SetExpanded(false)] on A, the three groups are collapsed, the
    controls are untouched, and A renders its child region collapsed. *)
Example collapse_scenario :
  ∃ s' out s'',
    ControlGroupElement.SetExpanded 3 1 false tree_store = Some s' ∧
    ControlGroupElement.expanded <$> ControlGroupElement.group_at s' 1 = Some false ∧
    ControlGroupElement.expanded <$> ControlGroupElement.group_at s' 2 = Some false ∧
    ControlGroupElement.expanded <$> ControlGroupElement.group_at s' 3 = Some false ∧
    s' !! 5 = Some (ControlGroupElement.Control leaf_control) ∧
    ControlGroupElement.render 1 s' = Some (out, s'') ∧
    ControlGroupElement.controlsClasses out = ["controls"; "collapsed"].
Proof. do 3 eexists. by repeat split. Qed.

(** With too small a bound the model of [SetExpanded] does not return. *)
Example SetExpanded_bound_too_small :
  ControlGroupElement.SetExpanded 2 1 false tree_store = None.
Proof. reflexivity. Qed.

(** * Further properties of ControlElement *)

Section FieldAccess.
Import ControlElement.
Variable env : Platform.



Lemma type_is_input i a v c s :
  type_is (Input i a v c) s = bool_decide (input_type_idl a = s).
Proof.
  unfold type_is. simpl. apply bool_decide_ext. split; [by intros [= ->]|by intros ->].
Qed.

Lemma set_checked_id v e : element_id (set_checked v e) = element_id e.
Proof. by destruct e. Qed.

Lemma set_innerText_id v e : element_id (set_innerText v e) = element_id e.
Proof. by destruct e. Qed.

Lemma set_value_id v e : element_id (set_value env v e) = element_id e.
Proof. by destruct e. Qed.

(** Replacing the element found under [n] by one with the same id does
    not change what is found under another id. *)
Lemma find_by_id_insert_other root n m k pos e e' :
  find_by_id root n k = Some (pos, e) →
  element_id e' = n →
  m ≠ n →
  find_by_id (<[pos - k := TElement e']> root) m k = find_by_id root m k.
Proof.
  revert k. induction root as [|t root IH]; intros k; [done|].
  destruct t as [lf lt|e0]; simpl.
  - intros H Hid Hne. destruct (find_by_id_lookup _ _ _ _ _ H) as (Hk & _ & _).
    replace (pos - k) with (S (pos - S k)) by lia. simpl. by apply IH.
  - destruct (String.eqb (element_id e0) n) eqn:Heq.
    + intros [= <- <-] Hid Hne. rewrite Nat.sub_diag. simpl.
      apply String.eqb_eq in Heq. rewrite Hid, Heq.
      assert (String.eqb n m = false) as -> by (by apply String.eqb_neq).
      done.
    + intros H Hid Hne. destruct (find_by_id_lookup _ _ _ _ _ H) as (Hk & _ & _).
      replace (pos - k) with (S (pos - S k)) by lia. simpl.
      destruct (String.eqb (element_id e0) m); [done|]. by apply IH.
Qed.

(** What a successful [updateValue] does to the root. *)
Lemma updateValue_inv root n v root' :
  updateValue env root n v = Returns root' →
  css_ident n = true ∧
  ∃ pos e e', find_by_id root n 0 = Some (pos, e) ∧
              element_id e' = n ∧
              (root' = root ∨ root' = <[pos := TElement e']> root).
Proof.
  unfold updateValue. change ("#" +:+ n) with (String "#" n). unfold querySelector.
  destruct (css_ident n); [|done].
  destruct (find_by_id root n 0) as [[pos e]|] eqn:Hf; [|done].
  destruct (find_by_id_lookup _ _ _ _ _ Hf) as (_ & _ & Hid).
  intros H. split; [done|]. exists pos, e.
  destruct (type_is e "checkbox");
    [|destruct (type_is e "div"); [|destruct (type_is e "select")]];
    injection H as <-.
  - exists (set_checked v e). by rewrite set_checked_id; auto.
  - exists (set_innerText v e). by rewrite set_innerText_id; auto.
  - exists e. auto.
  - exists (set_value env v e). by rewrite set_value_id; auto.
Qed.

Lemma UpdateFieldValue_inv this n v this' :
  UpdateFieldValue env this n v = Returns this' →
  ∃ root root', renderRoot this = Some root ∧
                updateValue env root n v = Returns root' ∧
                this' = with_root this root'.
Proof.
  unfold UpdateFieldValue. destruct (renderRoot this) as [root|]; [|done].
  destruct (updateValue env root n v) as [root'| | |] eqn:Hu; try done.
  intros [= <-]. by exists root, root'.
Qed.

End FieldAccess.

(** X1.  The constructor throws exactly when no name is given and the
    field list is missing, is empty, or starts with a field without a
    name; in every other case it returns a control. *)
Theorem constructor_throws_iff (params : Params.t) :
  ((∃ e, ControlElement.constructor params = Throws e) ↔
   Params.name params = None ∧
   (Params.fields params = None ∨ Params.fields params = Some [] ∨
    ∃ f fs, Params.fields params = Some (f :: fs) ∧ Field.name f = None)) ∧
  ((∃ e, ControlElement.constructor params = Throws e) ∨
   (∃ this, ControlElement.constructor params = Returns this)).
Proof.
  split; [apply constructor_throws|].
  unfold ControlElement.constructor.
  destruct (Params.name params); [right; by eexists|].
  destruct (Params.fields params) as [[|f fs]|]; [left; by eexists| |left; by eexists].
  destruct (Field.name f); [right|left]; by eexists.
Qed.

(** X2.  With the name omitted and a first field named [n], the
    constructor returns a control whose id is [n] followed by
    [_control]; the control is not rendered yet, keeps the fields and
    the handler of the parameters, and its button text is never empty
    ([Call] stands in for a missing or empty one). *)
Theorem constructor_from_first_field (params : Params.t) (f : Field.t)
    (fs : list Field.t) (n : string) :
  Params.name params = None →
  Params.fields params = Some (f :: fs) →
  Field.name f = Some n →
  ∃ this, ControlElement.constructor params = Returns this ∧
          ControlElement.id this = n +:+ "_control" ∧
          ControlElement.fields this = f :: fs ∧
          ControlElement.handler this = Params.handler params ∧
          ControlElement.renderRoot this = None ∧
          ControlElement.buttonText this ≠ "".
Proof.
  intros Hn Hf Hfn. unfold ControlElement.constructor. rewrite Hn, Hf, Hfn.
  eexists. split; [reflexivity|]. simpl. repeat split; try done.
  destruct (Params.buttonText params) as [bt|]; [|done].
  destruct (String.eqb bt "") eqn:Hb; [done|]. by apply String.eqb_neq.
Qed.

Lemma constructor_from_first_field_witness :
  ∃ this, ControlElement.constructor create_properties_params = Returns this ∧
          ControlElement.id this = "checked_control" ∧
          ControlElement.fields this = [checked_field; contexts_field; type_field] ∧
          ControlElement.handler this = None ∧
          ControlElement.renderRoot this = None ∧
          ControlElement.buttonText this ≠ "".
Proof.
  apply (constructor_from_first_field create_properties_params checked_field
           [contexts_field; type_field] "checked"); reflexivity.
Defined.

(** X3.  [SetButtonHandler] replaces the binding: after two bindings in
    a row, [Submit()] calls the second handler once and the first not at
    all.  Binding a handler leaves the widgets alone, so every field
    reads as before. *)
Theorem SetButtonHandler_last_wins (self : ref) (this : ControlElement.t)
    (h1 : option callback) (h2 : callback) (n : string) :
  run (ControlElement.Submit self
         (ControlElement.SetButtonHandler (Some h2)
            (ControlElement.SetButtonHandler h1 this))) = (Returns (), [Call h2 self]) ∧
  ControlElement.GetFieldValue (ControlElement.SetButtonHandler h1 this) n =
    ControlElement.GetFieldValue this n.
Proof. done. Qed.

Section RenderOrder.
Import ControlElement.
Variable env : Platform.

Lemma widget_ids_app (xs ys : list Template) :
  widget_ids (xs ++ ys) = widget_ids xs ++ widget_ids ys.
Proof. unfold widget_ids. apply flat_map_app. Qed.

Lemma widget_ids_fields (fs : list Field.t) :
  widget_ids (flat_map (renderField env) fs) = map dom_id fs.
Proof.
  induction fs as [|f fs IH]; [done|].
  simpl flat_map. rewrite widget_ids_app, IH, renderField_shape. simpl.
  by rewrite field_widget_id.
Qed.

Lemma widget_ids_button this :
  widget_ids (maybeRenderButton this) =
  if negb (isEventControl this) && bool_decide (is_Some (handler this))
  then ["button"] else [].
Proof.
  unfold maybeRenderButton.
  destruct (isEventControl this); [done|].
  destruct (bool_decide (is_Some (handler this))); [|done].
  simpl. by destruct (truthy_name (name this)).
Qed.

End RenderOrder.

(** X4.  The widgets of the render output are those of the fields, one
    per field and in the order of the descriptors, each under the DOM id
    of its field, followed by the button (id [button]) when the control
    has one. *)
Theorem render_in_descriptor_order (env : Platform) (this : ControlElement.t) :
  widget_ids (ControlElement.render env this) =
  map dom_id (ControlElement.fields this) ++
  (if negb (ControlElement.isEventControl this) &&
      bool_decide (is_Some (ControlElement.handler this))
   then ["button"] else []).
Proof.
  unfold ControlElement.render, ControlElement.renderFields.
  by rewrite widget_ids_app, widget_ids_fields, widget_ids_button.
Qed.

(** X5.  In the render output an id selector resolves to the widget of
    the first field that has this DOM id, which sits right after its
    label; fields further down that share the id are never reached. *)
Theorem lookup_finds_first_field (env : Platform) (this : ControlElement.t)
    (pre : list Field.t) (field : Field.t) (post : list Field.t) (n : string) :
  ControlElement.fields this = pre ++ field :: post →
  dom_id field = n →
  css_ident n = true →
  (∀ g, g ∈ pre → dom_id g ≠ n) →
  querySelector (ControlElement.render env this) ("#" +:+ n) =
    Matched (2 * length pre + 1) (field_widget env field).
Proof.
  intros Hfs Hid Hn Hpre. apply querySelector_id; [done|].
  by apply (find_rendered_field env this pre field post n).
Qed.

Lemma lookup_finds_first_field_witness :
  ∃ this, ControlElement.constructor create_properties_params = Returns this ∧
          querySelector (ControlElement.render plain_page this) "#type" =
            Matched 5 (field_widget plain_page type_field).
Proof.
  eexists. split; [reflexivity|].
  apply (lookup_finds_first_field plain_page _ [checked_field; contexts_field]
           type_field [] "type"); [reflexivity..|].
  intros g Hg. apply elem_of_cons in Hg as [->|Hg]; [done|].
  apply elem_of_cons in Hg as [->|Hg]; [done|].
  by apply elem_of_nil in Hg.
Defined.



Section WriteThenRead.
Import ControlElement.
Variable env : Platform.

Lemma select_first_values v os : map opt_value (select_first v os) = map opt_value os.
Proof.
  induction os as [|o os IH]; [done|]. simpl.
  destruct (String.eqb (opt_value o) v); simpl.
  - f_equal. rewrite map_map. by apply map_ext.
  - by rewrite IH.
Qed.

Lemma select_value_none_selected (os : list OptionEl) :
  select_value (map (λ o', mkOption (opt_value o') false) os) = "".
Proof. by induction os. Qed.

Lemma select_value_first v os :
  select_value (select_first v os) =
  if bool_decide (v ∈ map opt_value os) then v else "".
Proof.
  induction os as [|o os IH]; [done|].
  change (map opt_value (o :: os)) with (opt_value o :: map opt_value os).
  simpl select_first.
  destruct (String.eqb (opt_value o) v) eqn:Heq.
  - apply String.eqb_eq in Heq. simpl select_value.
    rewrite bool_decide_eq_true_2; [done|]. rewrite Heq. by left.
  - simpl select_value. rewrite IH. apply String.eqb_neq in Heq.
    rewrite (bool_decide_ext (v ∈ opt_value o :: map opt_value os)
               (v ∈ map opt_value os)); [done|].
    rewrite elem_of_cons. split; [intros [->|?]; [by destruct Heq|done] | by right].
Qed.

(** The read that follows a write which replaced the element under [n]. *)
Lemma read_after_replace root n pos e e' :
  css_ident n = true →
  find_by_id root n 0 = Some (pos, e) →
  element_id e' = element_id e →
  querySelector (<[pos := TElement e']> root) ("#" +:+ n) = Matched pos e'.
Proof.
  intros Hn Hf He. apply querySelector_id; [done|].
  destruct (find_by_id_lookup _ _ _ _ _ Hf) as (_ & _ & Hid).
  pose proof (find_by_id_insert root n 0 pos e e' Hf) as Hf'.
  rewrite Nat.sub_0_r in Hf'. apply Hf'. by rewrite He.
Qed.

End WriteThenRead.




(** X8.  Writing any value to a checkbox sets the toggle to the
    truthiness of the value, and the next read returns that boolean: a
    non-empty string, even ["false"], checks the box; [null],
    [undefined] and the empty string clear it. *)
Theorem checkbox_write_truthiness (env : Platform) (this : ControlElement.t)
    (root : list Template) (n : string) (pos : nat)
    (i a v : string) (c : bool) (value : jsval) :
  ControlElement.renderRoot this = Some root →
  css_ident n = true →
  find_by_id root n 0 = Some (pos, Input i a v c) →
  input_type_idl a = "checkbox" →
  ∃ this', ControlElement.UpdateFieldValue env this n value = Returns this' ∧
           ControlElement.GetFieldValue this' n = Returns (JBool (ToBoolean value)).
Proof.
  intros Hr Hn Hf Ha.
  assert (Hty : ∀ c', type_is (Input i a v c') "checkbox" = true).
  { intros c'. rewrite type_is_input. by apply bool_decide_eq_true_2. }
  unfold ControlElement.UpdateFieldValue, ControlElement.updateValue.
  rewrite Hr, (querySelector_id _ _ _ _ Hn Hf), Hty.
  eexists. split; [reflexivity|].
  unfold ControlElement.GetFieldValue. simpl ControlElement.renderRoot. cbv beta iota.
  simpl set_checked.
  rewrite (read_after_replace root n pos (Input i a v c)) by done.
  by rewrite Hty.
Qed.

Lemma checkbox_write_truthiness_witness :
  ∃ this this', rendered plain_page create_properties_params = Some this ∧
                ControlElement.UpdateFieldValue plain_page this "checked" (JStr "false") = Returns this' ∧
                ControlElement.GetFieldValue this' "checked" = Returns (JBool true).
Proof.
  eexists.
  destruct (checkbox_write_truthiness plain_page
              (ControlElement.firstUpdate plain_page
                 (ControlElement.mk "checked_control" None
                    [checked_field; contexts_field; type_field] false "Call" None None))
              _ "checked" 1 "checked" "checkbox" "on" false (JStr "false")
              eq_refl eq_refl eq_refl eq_refl) as (this' & Hu & Hg).
  exists this'. split; [reflexivity|]. split; [exact Hu | exact Hg].
Defined.

(** X9.  On a rendered control, when no widget has the id [n], both
    [GetFieldValue(n)] and [UpdateFieldValue(n, v)] end in a TypeError
    (the query result is [null], and reading its [type] throws). *)
Theorem unknown_field_throws (env : Platform) (this : ControlElement.t)
    (root : list Template) (n : string) (value : jsval) :
  ControlElement.renderRoot this = Some root →
  css_ident n = true →
  n ∉ widget_ids root →
  ControlElement.GetFieldValue this n = Throws TypeError ∧
  ControlElement.UpdateFieldValue env this n value = Throws TypeError.
Proof.
  intros Hr Hn Hnot.
  assert (Hf : ∀ k, find_by_id root n k = None).
  { clear Hr. induction root as [|t root IH]; intros k; [done|].
    destruct t as [lf lt|e]; simpl in *.
    - by apply IH.
    - apply not_elem_of_cons in Hnot as [Hne Hnot].
      destruct (String.eqb (element_id e) n) eqn:Heq.
      + apply String.eqb_eq in Heq. by destruct Hne.
      + by apply IH. }
  unfold ControlElement.GetFieldValue, ControlElement.UpdateFieldValue,
    ControlElement.updateValue.
  rewrite Hr. change ("#" +:+ n) with (String "#" n). unfold querySelector.
  by rewrite Hn, Hf.
Qed.

Lemma unknown_field_throws_witness :
  ∃ this, rendered plain_page create_properties_params = Some this ∧
          ControlElement.GetFieldValue this "button" = Throws TypeError ∧
          ControlElement.UpdateFieldValue plain_page this "title" (JStr "x") = Throws TypeError.
Proof.
  eexists. split; [reflexivity|]. split.
  - refine (proj1 (unknown_field_throws plain_page _ _ "button" JNull _ _ _));
      [reflexivity | reflexivity | compute_done].
  - refine (proj2 (unknown_field_throws plain_page _ _ "title" (JStr "x") _ _ _));
      [reflexivity | reflexivity | compute_done].
Defined.

(** X10.  A write that returns touches one widget only: the control
    keeps its id, name, fields and handler, the render root keeps its
    length, and every other field reads exactly as before the write. *)
Theorem write_leaves_other_fields (env : Platform) (this this' : ControlElement.t)
    (n m : string) (value : jsval) :
  ControlElement.UpdateFieldValue env this n value = Returns this' →
  m ≠ n →
  ControlElement.GetFieldValue this' m = ControlElement.GetFieldValue this m ∧
  length <$> ControlElement.renderRoot this' = length <$> ControlElement.renderRoot this ∧
  ControlElement.id this' = ControlElement.id this ∧
  ControlElement.name this' = ControlElement.name this ∧
  ControlElement.fields this' = ControlElement.fields this ∧
  ControlElement.handler this' = ControlElement.handler this.
Proof.
  intros Hu Hne.
  destruct (UpdateFieldValue_inv env _ _ _ _ Hu) as (root & root' & Hr & Hv & ->).
  destruct (updateValue_inv env _ _ _ _ Hv) as (Hn & pos & e & e' & Hf & Hid & Hroot).
  split; [|split; [|done]].
  - unfold ControlElement.GetFieldValue.
    change (ControlElement.renderRoot (ControlElement.with_root this root')) with (Some root').
    rewrite Hr. change ("#" +:+ m) with (String "#" m). unfold querySelector.
    destruct (css_ident m); [|done].
    destruct Hroot as [->| ->]; [done|].
    pose proof (find_by_id_insert_other root n m 0 pos e e' Hf Hid Hne) as Ho.
    rewrite Nat.sub_0_r in Ho. by rewrite Ho.
  - change (ControlElement.renderRoot (ControlElement.with_root this root')) with (Some root').
    rewrite Hr. destruct Hroot as [->| ->]; [done|]. simpl. by rewrite length_insert.
Qed.

Lemma write_leaves_other_fields_witness :
  ∃ this this', rendered plain_page create_properties_params = Some this ∧
                ControlElement.UpdateFieldValue plain_page this "type" (JStr "radio") = Returns this' ∧
                ControlElement.GetFieldValue this' "checked" =
                  ControlElement.GetFieldValue this "checked".
Proof.
  do 2 eexists. split; [reflexivity|]. split; [reflexivity|].
  refine (proj1 (write_leaves_other_fields plain_page _ _ "type" "checked" (JStr "radio") _ _)).
  - reflexivity.
  - by apply String.eqb_neq.
Defined.

(** X11.  A write to a [div] field does not reach its text: a [<div>]
    has no [type], so the [div] case of the switch is passed over and the
    value lands in the element's [value] property.  The text stays what
    it was, and the next read returns the written value itself, not
    converted to a string. *)
Theorem div_write_keeps_text (env : Platform) (this : ControlElement.t)
    (root : list Template) (n : string) (pos : nat)
    (i text : string) (x : option jsval) (value : jsval) :
  ControlElement.renderRoot this = Some root →
  css_ident n = true →
  find_by_id root n 0 = Some (pos, Div i text x) →
  ∃ this', ControlElement.UpdateFieldValue env this n value = Returns this' ∧
           ControlElement.renderRoot this' = Some (<[pos := TElement (Div i text (Some value))]> root) ∧
           ControlElement.GetFieldValue this' n = Returns value.
Proof.
  intros Hr Hn Hf.
  unfold ControlElement.UpdateFieldValue, ControlElement.updateValue.
  rewrite Hr, (querySelector_id _ _ _ _ Hn Hf).
  eexists. split; [reflexivity|]. split; [done|].
  unfold ControlElement.GetFieldValue. simpl ControlElement.renderRoot. cbv beta iota.
  simpl set_value.
  by rewrite (read_after_replace root n pos (Div i text x)) by done.
Qed.

Lemma div_write_keeps_text_witness :
  ∃ this this',
    rendered plain_page
      (Params.mk None (Some [Field.mk (Some "result") "div" None false [] false None])
         None None None) = Some this ∧
    ControlElement.UpdateFieldValue plain_page this "result" (JStr "id = 1") = Returns this' ∧
    ControlElement.renderRoot this' =
      Some [TLabel (Some "result") "result"; TElement (Div "result" "" (Some (JStr "id = 1")))] ∧
    ControlElement.GetFieldValue this' "result" = Returns (JStr "id = 1").
Proof.
  eexists.
  destruct (div_write_keeps_text plain_page
              (ControlElement.firstUpdate plain_page
                 (ControlElement.mk "result_control" None
                    [Field.mk (Some "result") "div" None false [] false None]
                    false "Call" None None))
              _ "result" 1 "result" "" None (JStr "id = 1")
              eq_refl eq_refl eq_refl) as (this' & Hu & Hroot & Hg).
  exists this'. split; [reflexivity|]. split; [exact Hu|]. split; [exact Hroot | exact Hg].
Defined.

(** X12.  A write to a single select keeps its options and moves the
    selection: the next read returns the written text when it is the
    value of an option, and the empty string (nothing selected) when it
    is not. *)
Theorem select_write_then_read (env : Platform) (this : ControlElement.t)
    (root : list Template) (n : string) (pos : nat)
    (i : string) (os : list OptionEl) (value : jsval) :
  ControlElement.renderRoot this = Some root →
  css_ident n = true →
  find_by_id root n 0 = Some (pos, Select i false os) →
  ∃ this' os',
    ControlElement.UpdateFieldValue env this n value = Returns this' ∧
    ControlElement.renderRoot this' = Some (<[pos := TElement (Select i false os')]> root) ∧
    map opt_value os' = map opt_value os ∧
    ControlElement.GetFieldValue this' n =
      Returns (JStr (if bool_decide (ToString value ∈ map opt_value os)
                     then ToString value else "")).
Proof.
  intros Hr Hn Hf.
  unfold ControlElement.UpdateFieldValue, ControlElement.updateValue.
  rewrite Hr, (querySelector_id _ _ _ _ Hn Hf).
  exists (ControlElement.with_root this
            (<[pos := TElement (Select i false (select_first (ToString value) os))]> root)),
         (select_first (ToString value) os).
  split; [reflexivity|]. split; [done|]. split; [apply select_first_values|].
  unfold ControlElement.GetFieldValue. simpl ControlElement.renderRoot. cbv beta iota.
  rewrite (read_after_replace root n pos (Select i false os)) by done.
  change (Returns (JStr (select_value (select_first (ToString value) os))) =
          Returns (JStr (if bool_decide (ToString value ∈ map opt_value os)
                         then ToString value else ""))).
  by rewrite select_value_first.
Qed.

Lemma select_write_then_read_witness :
  ∃ this this', rendered plain_page create_properties_params = Some this ∧
                ControlElement.UpdateFieldValue plain_page this "type" (JStr "bogus") = Returns this' ∧
                ControlElement.GetFieldValue this' "type" = Returns (JStr "").
Proof.
  eexists.
  destruct (select_write_then_read plain_page
              (ControlElement.firstUpdate plain_page
                 (ControlElement.mk "checked_control" None
                    [checked_field; contexts_field; type_field] false "Call" None None))
              _ "type" 5 "type"
              (ControlElement.initial_options false (Field.options type_field))
              (JStr "bogus") eq_refl eq_refl eq_refl) as (this' & os' & Hu & _ & _ & Hg).
  exists this'. split; [reflexivity|]. split; [exact Hu | exact Hg].
Defined.

(** * Properties of the callers *)

Lemma startsWith_append (p s : string) : startsWith (p +:+ s) p = true.
Proof.
  induction p as [|c p IH]; [done|]. simpl. by rewrite Ascii.eqb_refl, IH.
Qed.

(** X13.  [prependHTTPSProtocol] always returns a string that starts
    with [http://] or [https://]; it returns its argument unchanged when
    the argument already does, and so applying it twice is the same as
    applying it once. *)
Theorem prependHTTPSProtocol_scheme (str : string) :
  (startsWith (prependHTTPSProtocol str) "http://" ||
   startsWith (prependHTTPSProtocol str) "https://" = true) ∧
  (startsWith str "http://" || startsWith str "https://" = true →
   prependHTTPSProtocol str = str) ∧
  prependHTTPSProtocol (prependHTTPSProtocol str) = prependHTTPSProtocol str.
Proof.
  assert (H1 : startsWith (prependHTTPSProtocol str) "http://" ||
               startsWith (prependHTTPSProtocol str) "https://" = true).
  { unfold prependHTTPSProtocol.
    destruct (startsWith str "http://") eqn:Ha; cbn [negb andb].
    - by rewrite Ha.
    - destruct (startsWith str "https://") eqn:Hb; cbn [negb].
      + by rewrite Ha, Hb.
      + by rewrite (startsWith_append "https://" str), orb_true_r. }
  assert (H2 : ∀ s, startsWith s "http://" || startsWith s "https://" = true →
                    prependHTTPSProtocol s = s).
  { intros s Hs. unfold prependHTTPSProtocol.
    destruct (startsWith s "http://"); [done|].
    by destruct (startsWith s "https://"). }
  split; [done|]. split; [apply H2|]. by apply H2.
Qed.

Lemma prependHTTPSProtocol_scheme_witness :
  prependHTTPSProtocol "http://a.com" = "http://a.com" ∧
  prependHTTPSProtocol "a.com" = "https://a.com".
Proof.
  split; [|reflexivity].
  apply (proj1 (proj2 (prependHTTPSProtocol_scheme "http://a.com"))). reflexivity.
Defined.



(** * Further properties of ControlGroupElement *)

Section SetExpandedFootprint.
Import ControlGroupElement.
Variable b : bool.

Lemma changed_within_touched P s s' : changed_within P b s s' → touched b s s'.
Proof. intros H x. destruct (H x) as [E|[_ E]]; auto. Qed.

Lemma changed_within_refl P s : changed_within P b s s.
Proof. intros x. by left. Qed.

Lemma changed_within_weaken (P Q : ref → Prop) s s' :
  (∀ x, P x → Q x) → changed_within P b s s' → changed_within Q b s s'.
Proof. intros HPQ H x. destruct (H x) as [E|[HP E]]; [by left|right; auto]. Qed.

Lemma changed_within_trans P s1 s2 s3 :
  changed_within P b s1 s2 → changed_within P b s2 s3 → changed_within P b s1 s3.
Proof.
  intros H12 H23 x.
  destruct (H23 x) as [E2|[HP E2]], (H12 x) as [E1|[HP' E1]]; rewrite E2, E1.
  - by left.
  - by right.
  - by right.
  - right. by rewrite with_expanded_idemp.
Qed.

(** The loop of [SetExpanded] changes only groups below the children it
    walks over. *)
Lemma loop_changes fuel :
  (∀ c s s', SetExpanded fuel c b s = Some s' → changed_within (descendant s c) b s s') →
  ∀ cs s s',
    for_of cs (loop_body b fuel) s = Some s' →
    changed_within (λ x, ∃ c, c ∈ cs ∧ is_group s c ∧ descendant s c x) b s s'.
Proof.
  intros IHfuel. induction cs as [|c cs IH]; intros s s' Hfor.
  - injection Hfor as <-. apply changed_within_refl.
  - simpl in Hfor. destruct (loop_body b fuel c s) as [sa|] eqn:Hbody; [|done].
    assert (Hsa : changed_within (λ x, is_group s c ∧ descendant s c x) b s sa).
    { unfold loop_body in Hbody. destruct (s !! c) as [[cc|cg]|] eqn:Hc.
      - injection Hbody as <-. apply changed_within_refl.
      - apply IHfuel in Hbody. eapply changed_within_weaken; [|exact Hbody].
        intros x Hx. split; [by eexists|done].
      - injection Hbody as <-. apply changed_within_refl. }
    pose proof (changed_within_touched _ _ _ Hsa) as Ht.
    eapply changed_within_trans.
    + eapply changed_within_weaken; [|exact Hsa].
      intros x [Hg Hd]. exists c. split; [by left|done].
    + eapply changed_within_weaken; [|exact (IH _ _ Hfor)].
      intros x (c' & Hin & Hg & Hd). exists c'. split; [by right|].
      split; [by apply (touched_is_group b s sa)|by apply (touched_descendant b s sa)].
Qed.

(** [SetExpanded] on [this] changes only [this] and groups below it. *)
Lemma SetExpanded_changes fuel :
  ∀ this s s', SetExpanded fuel this b s = Some s' →
               changed_within (descendant s this) b s s'.
Proof.
  induction fuel as [|fuel IHfuel]; intros this s s' Hs; [done|].
  rewrite SetExpanded_unfold in Hs.
  destruct (s !! this) as [[c|g]|] eqn:Hg; try done.
  destruct (for_of (controls g) (loop_body b fuel) s) as [s1|] eqn:Hfor; [|done].
  injection Hs as <-.
  pose proof (loop_changes fuel IHfuel _ _ _ Hfor) as Hloop.
  intros x. destruct (decide (x = this)) as [->|Hne].
  - right. split; [apply rtc_refl|]. rewrite lookup_alter_eq.
    destruct (Hloop this) as [E|[_ E]]; rewrite E; by rewrite ?with_expanded_idemp.
  - rewrite lookup_alter_ne by done.
    destruct (Hloop x) as [E|[(c & Hin & Hgc & Hd) E]]; [by left|].
    right. split; [|done]. eapply rtc_l; [|exact Hd]. by exists g.
Qed.

(** A group that lists itself among its children: the recursion of
    [SetExpanded] comes back to the group with every call. *)
Lemma SetExpanded_knot this fuel :
  ∀ s g, s !! this = Some (ControlGroup g) → this ∈ controls g →
         SetExpanded fuel this b s = None.
Proof.
  induction fuel as [|fuel IHfuel]; intros s g Hg Hin; [done|].
  rewrite SetExpanded_unfold, Hg.
  assert (Hloop : ∀ cs s1,
            this ∈ cs →
            (∃ g1, s1 !! this = Some (ControlGroup g1) ∧ this ∈ controls g1) →
            for_of cs (loop_body b fuel) s1 = None).
  { induction cs as [|c cs IH]; intros s1 Hcs (g1 & Hg1 & Hin1).
    - by apply elem_of_nil in Hcs.
    - simpl. destruct (decide (c = this)) as [->|Hne].
      + unfold loop_body. rewrite Hg1. by rewrite (IHfuel s1 g1).
      + apply elem_of_cons in Hcs as [->|Hcs]; [done|].
        destruct (loop_body b fuel c s1) as [sa|] eqn:Hbody; [|done].
        apply IH; [done|].
        assert (Ht : touched b s1 sa).
        { unfold loop_body in Hbody. destruct (s1 !! c) as [[cc|cg]|].
          - injection Hbody as <-. apply touched_refl.
          - eapply changed_within_touched, SetExpanded_changes, Hbody.
          - injection Hbody as <-. apply touched_refl. }
        destruct (touched_group b _ _ _ _ Ht Hg1) as (g' & Hg' & Hcs').
        exists g'. by rewrite Hcs'. }
  rewrite (Hloop (controls g) s Hin); [done|]. by exists g.
Qed.

End SetExpandedFootprint.

(** X15.  On a store whose groups nest without a cycle, [SetExpanded(b)]
    is idempotent: it returns, and a second call on the store it leaves
    returns that very store. *)
Theorem SetExpanded_idempotent (rank : ref → nat) (s : ControlGroupElement.store)
    (this : ref) (b : bool) (fuel : nat) :
  ControlGroupElement.ranked rank s →
  ControlGroupElement.is_group s this →
  rank this < fuel →
  ∃ s', ControlGroupElement.SetExpanded fuel this b s = Some s' ∧
        ControlGroupElement.SetExpanded fuel this b s' = Some s'.
Proof.
  intros Hr Hg Hlt.
  destruct (SetExpanded_spec b rank fuel this s Hr Hg Hlt) as (s' & Hs & Ht & Hd & Hn).
  exists s'. split; [done|].
  destruct (SetExpanded_spec b rank fuel this s') as (s'' & Hs' & _).
  { by apply (touched_ranked b rank s). }
  { by apply (touched_is_group b s s'). }
  { done. }
  rewrite Hs'. f_equal. apply map_eq. intros x.
  destruct (SetExpanded_changes b fuel this s' s'' Hs' x) as [E|[Hx E]]; [done|].
  apply (touched_descendant b s s') in Hx; [|done].
  by rewrite E, (Hd x Hx), with_expanded_idemp.
Qed.

Lemma SetExpanded_idempotent_witness :
  ∃ s', ControlGroupElement.SetExpanded 3 1 false tree_store = Some s' ∧
        ControlGroupElement.SetExpanded 3 1 false s' = Some s'.
Proof.
  apply (SetExpanded_idempotent tree_rank tree_store 1 false 3).
  - exact tree_store_ranked.
  - eexists. reflexivity.
  - unfold tree_rank. simpl. lia.
Defined.

(** X16.  [SetExpanded] changes nothing but the [expanded] flag of the
    receiver and of groups below it, whenever it returns: every other
    object of the store is the same afterwards, and so are the heading,
    depth and children of the groups it did change. *)
Theorem SetExpanded_footprint (s s' : ControlGroupElement.store)
    (this : ref) (b : bool) (fuel : nat) :
  ControlGroupElement.SetExpanded fuel this b s = Some s' →
  ∀ x, s' !! x = s !! x ∨
       (ControlGroupElement.descendant s this x ∧
        s' !! x = ControlGroupElement.with_expanded b <$> s !! x).
Proof. intros Hs. exact (SetExpanded_changes b fuel this s s' Hs). Qed.

Lemma SetExpanded_footprint_witness :
  ∃ s', ControlGroupElement.SetExpanded 2 2 true tree_store = Some s' ∧
        s' !! 1 = tree_store !! 1.
Proof.
  eexists. split; [reflexivity|].
  destruct (SetExpanded_footprint tree_store _ 2 true 2 eq_refl 1) as [E|[_ E]];
    exact E.
Defined.

(** X17.  A group that lists itself among its children makes
    [SetExpanded] recurse without end: the call returns for no bound on
    the recursion depth. *)
Theorem SetExpanded_self_child_diverges (s : ControlGroupElement.store)
    (this : ref) (g : ControlGroupElement.t) (b : bool) (fuel : nat) :
  s !! this = Some (ControlGroupElement.ControlGroup g) →
  this ∈ ControlGroupElement.controls g →
  ControlGroupElement.SetExpanded fuel this b s = None.
Proof. intros Hg Hin. by apply (SetExpanded_knot b this fuel s g). Qed.

Lemma SetExpanded_self_child_diverges_witness :
  ControlGroupElement.SetExpanded 1000 1 false knot_store = None.
Proof.
  apply (SetExpanded_self_child_diverges knot_store 1
           (ControlGroupElement.mk (Some "A") 0 true [5; 1]) false 1000).
  - reflexivity.
  - compute_done.
Defined.

Section ExpandAll.
Import ControlGroupElement.
Variable b : bool.
Variable rank : ref → nat.

Lemma expandAllControls_spec fuel groups :
  ∀ s, ranked rank s →
       (∀ r, r ∈ groups → is_group s r ∧ rank r < fuel) →
       ∃ s', expandAllControls fuel groups b s = Some s' ∧
             touched b s s' ∧
             (∀ x, (∃ r, r ∈ groups ∧ descendant s r x) →
                   s' !! x = with_expanded b <$> s !! x) ∧
             (∀ x, (∀ r, r ∈ groups → ¬ descendant s r x) → s' !! x = s !! x).
Proof.
  unfold expandAllControls.
  induction groups as [|r groups IH]; intros s Hr Hgs.
  - exists s. split; [done|]. split; [apply touched_refl|].
    split; [|done]. intros x (r & Hin & _). by apply elem_of_nil in Hin.
  - destruct (Hgs r) as [Hg Hlt]; [by left|].
    destruct (SetExpanded_spec b rank fuel r s Hr Hg Hlt) as (s1 & Hs1 & Ht1 & Hd1 & Hn1).
    destruct (IH s1) as (s' & Hfor & Ht' & Hd' & Hn').
    { by apply (touched_ranked b rank s). }
    { intros r' Hr'. destruct (Hgs r') as [Hg' Hlt']; [by right|].
      split; [by apply (touched_is_group b s s1)|done]. }
    exists s'. split; [simpl; by rewrite Hs1|].
    split; [by apply (touched_trans b s s1)|]. split.
    + intros x (r' & Hin & Hx). apply elem_of_cons in Hin as [->|Hin].
      * destruct (Ht' x) as [E|E]; rewrite E, (Hd1 x Hx);
          by rewrite ?with_expanded_idemp.
      * rewrite Hd'.
        -- destruct (Ht1 x) as [E|E]; rewrite E; by rewrite ?with_expanded_idemp.
        -- exists r'. split; [done|]. by apply (touched_descendant b s s1).
    + intros x Hx. rewrite Hn', Hn1; [done| |].
      * apply Hx. by left.
      * intros r' Hr' Hd. apply (Hx r'); [by right|].
        by apply (touched_descendant b s s1).
Qed.

End ExpandAll.

(** X18.  [expandAllControls(b)] over a list of groups of an acyclic
    store returns and leaves [expanded] set to [b] on every listed group
    and on every group nested below one of them; controls, and groups
    below none of them, are untouched.  With no group in the list
    nothing changes. *)
Theorem expandAllControls_reaches_nested (rank : ref → nat)
    (s : ControlGroupElement.store) (groups : list ref) (b : bool) (fuel : nat) :
  ControlGroupElement.ranked rank s →
  (∀ r, r ∈ groups → ControlGroupElement.is_group s r ∧ rank r < fuel) →
  ∃ s', expandAllControls fuel groups b s = Some s' ∧
    (∀ x g, (∃ r, r ∈ groups ∧ ControlGroupElement.descendant s r x) →
            s !! x = Some (ControlGroupElement.ControlGroup g) →
            s' !! x = Some (ControlGroupElement.ControlGroup
                              (ControlGroupElement.mk (ControlGroupElement.heading g)
                                 (ControlGroupElement.depth g) b
                                 (ControlGroupElement.controls g)))) ∧
    (∀ x c, s !! x = Some (ControlGroupElement.Control c) →
            s' !! x = Some (ControlGroupElement.Control c)) ∧
    (∀ x, (∀ r, r ∈ groups → ¬ ControlGroupElement.descendant s r x) →
          s' !! x = s !! x).
Proof.
  intros Hr Hgs.
  destruct (expandAllControls_spec b rank fuel groups s Hr Hgs) as (s' & Hs & Ht & Hd & Hn).
  exists s'. split; [done|]. split; [|split].
  - intros x g Hx Hxg. by rewrite (Hd x Hx), Hxg.
  - intros x c Hx. by apply (touched_control b s).
  - done.
Qed.

Lemma expandAllControls_reaches_nested_witness :
  ∃ s', expandAllControls 3 [1] false tree_store = Some s' ∧
        s' !! 3 = Some (ControlGroupElement.ControlGroup
                          (ControlGroupElement.mk (Some "C") 0 false [7])).
Proof.
  destruct (expandAllControls_reaches_nested tree_rank tree_store [1] false 3)
    as (s' & Hs & Hd & _).
  - exact tree_store_ranked.
  - intros r Hr. apply elem_of_cons in Hr as [->|Hr]; [|by apply elem_of_nil in Hr].
    split; [eexists; reflexivity | unfold tree_rank; simpl; lia].
  - exists s'. split; [exact Hs|].
    apply (Hd 3 (ControlGroupElement.mk (Some "C") 0 true [7])); [|reflexivity].
    exists 1. split; [by left|].
    eapply rtc_l; [|eapply rtc_l; [|apply rtc_refl]].
    + eexists. split; [reflexivity|]. split; [by left|]. eexists. reflexivity.
    + eexists. split; [reflexivity|]. split; [by left|]. eexists. reflexivity.
Defined.

(** X19.  A render pass changes nothing but the depth of direct child
    groups, and rendering again changes nothing at all: the second pass
    returns the same output and the same store as the first. *)
Theorem render_idempotent (s : ControlGroupElement.store) (this : ref)
    (g : ControlGroupElement.t) :
  s !! this = Some (ControlGroupElement.ControlGroup g) →
  this ∉ ControlGroupElement.controls g →
  ∃ out s', ControlGroupElement.render this s = Some (out, s') ∧
            ControlGroupElement.render this s' = Some (out, s') ∧
            ∀ x, s' !! x = s !! x ∨
                 (x ∈ ControlGroupElement.controls g ∧
                  s' !! x = ControlGroupElement.with_depth
                              (ControlGroupElement.depth g + 1) <$> s !! x).
Proof.
  intros Hthis Hnot. unfold ControlGroupElement.render at 1. rewrite Hthis.
  do 2 eexists. split; [reflexivity|].
  assert (Hthis' : foldl (ControlGroupElement.render_child this) s
                     (ControlGroupElement.controls g) !! this =
                   Some (ControlGroupElement.ControlGroup g)).
  { rewrite (render_children_lookup _ g) by done. by rewrite decide_False. }
  split.
  - unfold ControlGroupElement.render. rewrite Hthis'. do 2 f_equal.
    apply map_eq. intros x.
    rewrite (render_children_lookup _ g _ _ x Hthis' Hnot).
    rewrite (render_children_lookup _ g _ _ x Hthis Hnot).
    case_decide; [by rewrite with_depth_idemp|done].
  - intros x. rewrite (render_children_lookup _ g _ _ x Hthis Hnot).
    case_decide; [by right|by left].
Qed.

Lemma render_idempotent_witness :
  ∃ out s', ControlGroupElement.render 1 tree_store = Some (out, s') ∧
            ControlGroupElement.render 1 s' = Some (out, s').
Proof.
  destruct (render_idempotent tree_store 1
              (ControlGroupElement.mk (Some "A") 0 true [2; 5]))
    as (out & s' & H1 & H2 & _).
  - reflexivity.
  - compute_done.
  - exists out, s'. split; [exact H1 | exact H2].
Defined.

(** X20.  Depths add up along render passes: when a group at depth [d]
    renders and then one of its child groups renders, the child is at
    depth [d + 1] and each group among the child's children is at depth
    [d + 2]. *)
Theorem grandchild_depth_after_two_renders (s : ControlGroupElement.store)
    (this c gc : ref) (g cg gg : ControlGroupElement.t) :
  s !! this = Some (ControlGroupElement.ControlGroup g) →
  s !! c = Some (ControlGroupElement.ControlGroup cg) →
  s !! gc = Some (ControlGroupElement.ControlGroup gg) →
  c ∈ ControlGroupElement.controls g →
  gc ∈ ControlGroupElement.controls cg →
  this ∉ ControlGroupElement.controls g →
  c ∉ ControlGroupElement.controls cg →
  ∃ out1 s1 out2 s2,
    ControlGroupElement.render this s = Some (out1, s1) ∧
    ControlGroupElement.render c s1 = Some (out2, s2) ∧
    ControlGroupElement.depth <$> ControlGroupElement.group_at s2 c =
      Some (ControlGroupElement.depth g + 1) ∧
    ControlGroupElement.depth <$> ControlGroupElement.group_at s2 gc =
      Some (ControlGroupElement.depth g + 2).
Proof.
  intros Hthis Hc Hgc Hcin Hgcin Hnot Hcnot.
  destruct (render_spec s this g Hthis Hnot) as (out1 & s1 & Hr1 & _ & _ & Hch & Hoth & _).
  pose proof (Hch c cg Hcin Hc) as Hc1. simpl in Hc1.
  assert (∃ gg1, s1 !! gc = Some (ControlGroupElement.ControlGroup gg1)) as [gg1 Hgc1].
  { destruct (decide (gc ∈ ControlGroupElement.controls g)) as [Hin|Hout].
    - rewrite (Hch gc gg Hin Hgc). by eexists.
    - rewrite (Hoth gc Hout). by eexists. }
  destruct (render_spec s1 c _ Hc1 Hcnot) as (out2 & s2 & Hr2 & _ & Hc2 & Hch2 & _).
  exists out1, s1, out2, s2. split; [done|]. split; [done|].
  unfold ControlGroupElement.group_at. split.
  - by rewrite Hc2.
  - rewrite (Hch2 gc gg1 Hgcin Hgc1). simpl. f_equal. lia.
Qed.

Lemma grandchild_depth_after_two_renders_witness :
  ∃ out1 s1 out2 s2,
    ControlGroupElement.render 1 tree_store = Some (out1, s1) ∧
    ControlGroupElement.render 2 s1 = Some (out2, s2) ∧
    ControlGroupElement.depth <$> ControlGroupElement.group_at s2 2 = Some 1 ∧
    ControlGroupElement.depth <$> ControlGroupElement.group_at s2 3 = Some 2.
Proof.
  apply (grandchild_depth_after_two_renders tree_store 1 2 3
           (ControlGroupElement.mk (Some "A") 0 true [2; 5])
           (ControlGroupElement.mk (Some "B") 0 false [3; 6])
           (ControlGroupElement.mk (Some "C") 0 true [7]));
    [reflexivity | reflexivity | reflexivity | by left | by left
    | compute_done | compute_done].
Defined.



(** X22.  Toggling a group flips its own [expanded] flag and nothing
    else in the store (the flags of nested groups stay as they are), and
    toggling twice restores the store. *)
Theorem toggleCollapseGroup_involutive (s : ControlGroupElement.store) (this : ref) :
  ControlGroupElement.toggleCollapseGroup this
    (ControlGroupElement.toggleCollapseGroup this s) = s ∧
  (∀ x, x ≠ this → ControlGroupElement.toggleCollapseGroup this s !! x = s !! x) ∧
  ControlGroupElement.expanded <$>
    ControlGroupElement.group_at (ControlGroupElement.toggleCollapseGroup this s) this =
  negb <$> (ControlGroupElement.expanded <$> ControlGroupElement.group_at s this).
Proof.
  unfold ControlGroupElement.toggleCollapseGroup, ControlGroupElement.group_at.
  destruct (s !! this) as [[c|g]|] eqn:Hthis; cbv beta iota.
  - by rewrite !Hthis.
  - rewrite lookup_alter_eq, Hthis. simpl. split; [|split; [|done]].
    + apply map_eq. intros x. destruct (decide (x = this)) as [->|Hne].
      * rewrite !lookup_alter_eq, Hthis. simpl. rewrite negb_involutive. by destruct g.
      * by rewrite !lookup_alter_ne.
    + intros x Hx. by rewrite lookup_alter_ne.
  - by rewrite !Hthis.
Qed.

Lemma toggleCollapseGroup_involutive_witness :
  ControlGroupElement.toggleCollapseGroup 2
    (ControlGroupElement.toggleCollapseGroup 2 tree_store) = tree_store ∧
  ControlGroupElement.toggleCollapseGroup 2 tree_store !! 3 = tree_store !! 3.
Proof.
  split.
  - exact (proj1 (toggleCollapseGroup_involutive tree_store 2)).
  - apply (proj1 (proj2 (toggleCollapseGroup_involutive tree_store 2))). lia.
Defined.

Lemma constructor_throws_iff_witness :
  ∃ e, ControlElement.constructor (Params.mk None (Some []) None None (Some 7)) = Throws e.
Proof.
  apply (proj2 (proj1 (constructor_throws_iff (Params.mk None (Some []) None None (Some 7))))).
  split; [reflexivity|]. right. by left.
Defined.

(** X23.  A click on the button of a control whose handler has been
    unbound never reaches the handler call: when the page defines a
    global [buttonText] the click logs [Handler for <that text> is not
    set.] and returns; when it does not, building the message raises a
    ReferenceError and nothing is logged. *)
Theorem onBtnClick_unbound (env : Platform) (self : ref) (this : ControlElement.t)
    (tr : list effect) :
  ControlElement.handler this = None →
  ControlElement.onBtnClick env self this tr =
    match global_buttonText env with
    | Some text => (Returns (), tr ++ [LogErr ("Handler for " +:+ text +:+ " is not set.")])
    | None => (Throws ReferenceError, tr)
    end.
Proof.
  intros Hh. unfold ControlElement.onBtnClick. rewrite Hh. simpl.
  by destruct (global_buttonText env).
Qed.

Lemma onBtnClick_unbound_witness :
  ∃ this, ControlElement.constructor unwired_params = Returns this ∧
          run (ControlElement.onBtnClick plain_page 1 this) = (Throws ReferenceError, []) ∧
          run (ControlElement.onBtnClick (mkPlatform (λ _ v, v) (Some "Go")) 1 this) =
            (Returns (), [LogErr "Handler for Go is not set."]).
Proof.
  eexists. split; [reflexivity|]. unfold run. split.
  - refine (onBtnClick_unbound plain_page 1 _ [] _). reflexivity.
  - refine (onBtnClick_unbound (mkPlatform (λ _ v, v) (Some "Go")) 1 _ [] _). reflexivity.
Defined.
